(** * RecursiveSharedMutex: a reentrant shared/exclusive spin lock

    Shallow embedding of [src/recursive_shared_mutex.{h,cpp}].

    The object state is the record [RecursiveSharedMutex] with the four data
    members of the class.  The member functions are cut into the blocks that
    run without another thread being able to observe an intermediate state:
    a section guarded by [_mtx] that reads or writes the atomic
    [_writerThreadId] at most once is one block (the guarded data is private
    to the holder of [_mtx], the atomic access is its only visible point);
    [try_lock], which reads the atomic and then compare-and-swaps it under
    one hold of [_mtx], is two blocks.  The compare-and-swap of [lock] and
    the assertion of [unlock] run outside [_mtx] and are blocks of their own.

    Threads are interleaved by [exec], one block at a time.  [assert] is
    modelled as in a checked build: a failing assertion aborts the program. *)

From stdpp Require Import base decidable option gmap fin_sets.
From Stdlib Require Import ZArith Lia.

Local Open Scope Z_scope.
#[local] Set Warnings "-clear-no-such-hyp".

(** ** Data model *)

(** [std::thread::id] of a running thread.  The default constructed id, which
    names no thread, is [None] in an [option tid]. *)
Definition tid := nat.

(** [uint32_t] arithmetic: [++x] and [--x] wrap around. *)
Definition UINT32_MOD : Z := 2 ^ 32.
Definition incr32 (x : Z) : Z := (x + 1) mod UINT32_MOD.
Definition decr32 (x : Z) : Z := (x - 1) mod UINT32_MOD.
Definition is_uint32 (x : Z) : Prop := 0 <= x < UINT32_MOD.

Record RecursiveSharedMutex := Build_RecursiveSharedMutex {
  _waitingWriters : Z;                 (* uint32_t *)
  _writerThreadId : option tid;        (* std::atomic<std::thread::id> *)
  _writersOwnership : Z;               (* uint32_t *)
  _readersOwnership : gmap tid Z       (* unordered_map<thread::id, uint32_t> *)
}.

(** The constructor: [_waitingWriters(0)], [_writersOwnership(1)]; the atomic
    id and the map are default constructed. *)
Definition RecursiveSharedMutex_new : RecursiveSharedMutex :=
  {| _waitingWriters := 0;
     _writerThreadId := None;
     _writersOwnership := 1;
     _readersOwnership := ∅ |}.

Definition set_waitingWriters (v : Z) (s : RecursiveSharedMutex) :=
  {| _waitingWriters := v;
     _writerThreadId := _writerThreadId s;
     _writersOwnership := _writersOwnership s;
     _readersOwnership := _readersOwnership s |}.

Definition set_writerThreadId (v : option tid) (s : RecursiveSharedMutex) :=
  {| _waitingWriters := _waitingWriters s;
     _writerThreadId := v;
     _writersOwnership := _writersOwnership s;
     _readersOwnership := _readersOwnership s |}.

Definition set_writersOwnership (v : Z) (s : RecursiveSharedMutex) :=
  {| _waitingWriters := _waitingWriters s;
     _writerThreadId := _writerThreadId s;
     _writersOwnership := v;
     _readersOwnership := _readersOwnership s |}.

Definition set_readersOwnership (v : gmap tid Z) (s : RecursiveSharedMutex) :=
  {| _waitingWriters := _waitingWriters s;
     _writerThreadId := _writerThreadId s;
     _writersOwnership := _writersOwnership s;
     _readersOwnership := v |}.

(** [unordered_map] operations used by the code. *)

(** [m.count(t)] *)
Definition count (t : tid) (m : gmap tid Z) : Z :=
  match m !! t with Some _ => 1 | None => 0 end.

(** [m[t]] as an rvalue; [operator[]] value-initialises a missing entry. *)
Definition at_ (t : tid) (m : gmap tid Z) : Z := default 0 (m !! t).

(** [m.insert(make_pair(t, d))]: an existing entry is kept. *)
Definition insert_pair (t : tid) (d : Z) (m : gmap tid Z) : gmap tid Z :=
  match m !! t with Some _ => m | None => <[t := d]> m end.

(** [m.size() == 0] *)
Definition size_is_zero (m : gmap tid Z) : bool := bool_decide (size m = 0%nat).

(** [_writerThreadId == threadId] *)
Definition writer_is (t : tid) (s : RecursiveSharedMutex) : bool :=
  bool_decide (_writerThreadId s = Some t).

(** ** Control points *)

(** Where a thread stands between two blocks. *)
Inductive pc :=
  | Idle          (* not inside a member function *)
  | LockSpin      (* lock(): line 58, before a compare-and-swap *)
  | LockDrain     (* lock(): line 62, slot claimed, waiting for the readers *)
  | TryCas        (* try_lock(): line 89, holding _mtx *)
  | SharedWait    (* lock_shared(): line 140 *)
  | UnlockBody.   (* unlock(): line 168, assertion passed *)

Inductive op := Lock | TryLock | LockShared | Unlock | UnlockShared.

Inductive ret := RetVoid | RetBool (b : bool).

Inductive block_result :=
  | Return (r : ret) (s : RecursiveSharedMutex)
  | Goto (p : pc) (s : RecursiveSharedMutex)
  | AssertFail.

#[global] Instance pc_eq_dec : EqDecision pc.
Proof. solve_decision. Defined.
#[global] Instance op_eq_dec : EqDecision op.
Proof. solve_decision. Defined.
#[global] Instance ret_eq_dec : EqDecision ret.
Proof. solve_decision. Defined.

(** ** The blocks of the member functions *)

(** [lock()], lines 48-55. *)
Definition lock_enter (t : tid) (s : RecursiveSharedMutex) : block_result :=
  if writer_is t s then
    Return RetVoid (set_writersOwnership (incr32 (_writersOwnership s)) s)
  else if bool_decide (count t (_readersOwnership s) = 0) then
    Goto LockSpin (set_waitingWriters (incr32 (_waitingWriters s)) s)
  else AssertFail.

(** [lock()], lines 60-61 and 75: one [compare_exchange_weak(empty, threadId)].
    [weak_fail] is the spurious failure a weak compare-and-swap may have. *)
Definition lock_cas (t : tid) (weak_fail : bool) (s : RecursiveSharedMutex)
  : block_result :=
  match _writerThreadId s with
  | None => if weak_fail then Goto LockSpin s
            else Goto LockDrain (set_writerThreadId (Some t) s)
  | Some _ => Goto LockSpin s
  end.

(** [lock()], lines 64-72. *)
Definition lock_drain (s : RecursiveSharedMutex) : block_result :=
  if size_is_zero (_readersOwnership s) then
    Return RetVoid (set_waitingWriters (decr32 (_waitingWriters s)) s)
  else Goto LockDrain s.

(** [try_lock()], lines 82-87. *)
Definition try_lock_check (t : tid) (s : RecursiveSharedMutex) : block_result :=
  if writer_is t s then
    Return (RetBool true) (set_writersOwnership (incr32 (_writersOwnership s)) s)
  else Goto TryCas s.

(** [try_lock()], lines 89-92. *)
Definition try_lock_cas (t : tid) (weak_fail : bool) (s : RecursiveSharedMutex)
  : block_result :=
  if size_is_zero (_readersOwnership s) then
    match _writerThreadId s with
    | None => if weak_fail then Return (RetBool false) s
              else Return (RetBool true) (set_writerThreadId (Some t) s)
    | Some _ => Return (RetBool false) s
    end
  else Return (RetBool false) s.

(** [lock_shared()], lines 125-138. *)
Definition lock_shared_enter (t : tid) (s : RecursiveSharedMutex) : block_result :=
  if writer_is t s then
    Return RetVoid (set_writersOwnership (incr32 (_writersOwnership s)) s)
  else if bool_decide (count t (_readersOwnership s) ≠ 0) then
    Return RetVoid
      (set_readersOwnership
         (<[t := incr32 (at_ t (_readersOwnership s))]> (_readersOwnership s)) s)
  else Goto SharedWait s.

(** [lock_shared()], lines 141-151. *)
Definition lock_shared_wait (t : tid) (s : RecursiveSharedMutex) : block_result :=
  let wait_longer :=
    negb (bool_decide (_waitingWriters s = 0))
    || negb (bool_decide (_writerThreadId s = None)) in
  if negb wait_longer then
    Return RetVoid
      (set_readersOwnership (insert_pair t 1 (_readersOwnership s)) s)
  else Goto SharedWait s.

(** [unlock()], line 166. *)
Definition unlock_assert (t : tid) (s : RecursiveSharedMutex) : block_result :=
  if writer_is t s then Goto UnlockBody s else AssertFail.

(** [unlock()], lines 168-178. *)
Definition unlock_body (s : RecursiveSharedMutex) : block_result :=
  if bool_decide (_writersOwnership s ≠ 1) then
    Return RetVoid (set_writersOwnership (decr32 (_writersOwnership s)) s)
  else Return RetVoid (set_writerThreadId None s).

(** [unlock_shared()], lines 200-217. *)
Definition unlock_shared_body (t : tid) (s : RecursiveSharedMutex) : block_result :=
  if writer_is t s then
    Return RetVoid (set_writersOwnership (decr32 (_writersOwnership s)) s)
  else if bool_decide (count t (_readersOwnership s) = 1) then
    if bool_decide (at_ t (_readersOwnership s) ≠ 1) then
      Return RetVoid
        (set_readersOwnership
           (<[t := decr32 (at_ t (_readersOwnership s))]> (_readersOwnership s)) s)
    else Return RetVoid (set_readersOwnership (delete t (_readersOwnership s)) s)
  else AssertFail.

(** ** Threads and interleaving *)

(** The whole program state: the object, the holder of [_mtx] and the control
    point of every thread (a thread not in the map is [Idle]). *)
Record sys := Sys {
  obj : RecursiveSharedMutex;
  mtx : option tid;
  pcs : gmap tid pc
}.

Definition pc_of (σ : sys) (t : tid) : pc := default Idle (pcs σ !! t).

Definition init : sys := Sys RecursiveSharedMutex_new None ∅.

(** A scheduler event: thread [t] calls a member function, or thread [t] runs
    its next block ([weak_fail] is used by a compare-and-swap only). *)
Inductive event :=
  | Call (t : tid) (o : op)
  | Run (t : tid) (weak_fail : bool).

Definition ev_thread (e : event) : tid :=
  match e with Call t _ => t | Run t _ => t end.

Inductive exec_result :=
  | Ok (σ : sys) (r : option ret)   (* the block ran; [Some r]: the call returned *)
  | Aborted                         (* an assertion failed *)
  | Disabled.                       (* the thread cannot run this event now *)

(** Commit the result of a block of thread [t]; [m] is the holder of [_mtx]
    once the block is over. *)
Definition commit (t : tid) (m : option tid) (σ : sys) (b : block_result)
  : exec_result :=
  match b with
  | Return r s => Ok (Sys s m (<[t := Idle]> (pcs σ))) (Some r)
  | Goto p s => Ok (Sys s m (<[t := p]> (pcs σ))) None
  | AssertFail => Aborted
  end.

(** A block that takes [_mtx] with a [lock_guard]: it can start only when
    [_mtx] is free; [try_lock] keeps it between its two blocks. *)
Definition guarded (t : tid) (σ : sys) (b : block_result) : exec_result :=
  match mtx σ with
  | None =>
      match b with
      | Goto TryCas _ => commit t (Some t) σ b
      | _ => commit t None σ b
      end
  | Some _ => Disabled
  end.

(** The second block of [try_lock]: runs with [_mtx] held and releases it. *)
Definition holding (t : tid) (σ : sys) (b : block_result) : exec_result :=
  if bool_decide (mtx σ = Some t) then commit t None σ b else Disabled.

(** A block outside [_mtx]. *)
Definition unguarded (t : tid) (σ : sys) (b : block_result) : exec_result :=
  commit t (mtx σ) σ b.

Definition exec (e : event) (σ : sys) : exec_result :=
  match e with
  | Call t o =>
      match pc_of σ t with
      | Idle =>
          match o with
          | Lock => guarded t σ (lock_enter t (obj σ))
          | TryLock => guarded t σ (try_lock_check t (obj σ))
          | LockShared => guarded t σ (lock_shared_enter t (obj σ))
          | Unlock => unguarded t σ (unlock_assert t (obj σ))
          | UnlockShared => guarded t σ (unlock_shared_body t (obj σ))
          end
      | _ => Disabled
      end
  | Run t weak_fail =>
      match pc_of σ t with
      | Idle => Disabled
      | LockSpin => unguarded t σ (lock_cas t weak_fail (obj σ))
      | LockDrain => guarded t σ (lock_drain (obj σ))
      | TryCas => holding t σ (try_lock_cas t weak_fail (obj σ))
      | SharedWait => guarded t σ (lock_shared_wait t (obj σ))
      | UnlockBody => guarded t σ (unlock_body (obj σ))
      end
  end.

(** The states a program whose threads are all in [threads] can be in. *)
Inductive reachable (threads : gset tid) : sys → Prop :=
  | reachable_init : reachable threads init
  | reachable_step σ e σ' r :
      reachable threads σ →
      ev_thread e ∈ threads →
      exec e σ = Ok σ' r →
      reachable threads σ'.

(** One call of thread [t] run to its return with no other thread scheduled.
    [ws] lists the [weak_fail] flag of each further block the thread runs, so
    its length bounds the number of blocks; [Ok σ None] says the call has not
    returned within that bound. *)
Fixpoint run_alone (ws : list bool) (t : tid) (σ : sys) : exec_result :=
  match ws with
  | [] => Ok σ None
  | w :: ws' =>
      match exec (Run t w) σ with
      | Ok σ' None => run_alone ws' t σ'
      | r => r
      end
  end.

Definition call (ws : list bool) (t : tid) (o : op) (σ : sys) : exec_result :=
  match exec (Call t o) σ with
  | Ok σ' None => run_alone ws t σ'
  | r => r
  end.

(** [n] calls in a row by thread [t], each started when the one before has
    returned. *)
Definition and_then (r : exec_result) (k : sys → exec_result) : exec_result :=
  match r with
  | Ok σ (Some _) => k σ
  | _ => r
  end.

Definition calls (n : N) (ws : list bool) (t : tid) (o : op) (σ : sys)
  : exec_result :=
  N.iter n (λ r, and_then r (call ws t o)) (Ok σ (Some RetVoid)).

(** ** Specification vocabulary *)

(** Thread [t] can start a call: it is outside every member function and
    [_mtx] is free. *)
Definition ready (σ : sys) (t : tid) : Prop :=
  pc_of σ t = Idle ∧ mtx σ = None.

(** The result [res] is: the call returned [r] to thread [t] and left the
    object as [s]. *)
Definition returns (res : exec_result) (t : tid) (r : ret)
    (s : RecursiveSharedMutex) : Prop :=
  ∃ σ', res = Ok σ' (Some r) ∧ obj σ' = s ∧ ready σ' t.

(** The result [res] is a return to [t] in a state whose object satisfies [P]. *)
Definition returns_with (res : exec_result) (t : tid)
    (P : RecursiveSharedMutex → Prop) : Prop :=
  ∃ σ', res = Ok σ' (Some RetVoid) ∧ P (obj σ') ∧ ready σ' t.

(** The fields hold 32-bit values. *)
Definition wf (s : RecursiveSharedMutex) : Prop :=
  is_uint32 (_waitingWriters s) ∧ is_uint32 (_writersOwnership s)
  ∧ map_Forall (λ _ d, is_uint32 d) (_readersOwnership s).

(** State UNLOCKED of the specification. *)
Definition unlocked (s : RecursiveSharedMutex) : Prop :=
  _writerThreadId s = None ∧ _readersOwnership s = ∅ ∧ _waitingWriters s = 0.

(** A thread inside an exclusive acquisition that has not completed. *)
Definition acquiring (p : pc) : bool :=
  match p with
  | LockSpin | LockDrain | TryCas => true
  | _ => false
  end.

(** A thread that has announced itself in [_waitingWriters]: between the
    increment of line 54 and the decrement of line 68. *)
Definition waiting (p : pc) : bool :=
  match p with
  | LockSpin | LockDrain => true
  | _ => false
  end.

(** Exclusive ownership: [t] is in the writer slot and its acquisition is
    complete. *)
Definition holds_exclusive (σ : sys) (t : tid) : Prop :=
  _writerThreadId (obj σ) = Some t ∧ acquiring (pc_of σ t) = false.

(** Shared ownership: [t] has an entry in the reader set. *)
Definition holds_shared (σ : sys) (t : tid) : Prop :=
  is_Some (_readersOwnership (obj σ) !! t).

(** The threads counted by [_waitingWriters]. *)
Definition waiting_set (ps : gmap tid pc) : gset tid :=
  dom (filter (λ kv, waiting kv.2 = true) ps).

(** What the control points say about the writer slot, and what the slot says
    about the rest of the object. *)
Record Inv (σ : sys) : Prop := {
  inv_drain : ∀ t, pc_of σ t = LockDrain → _writerThreadId (obj σ) = Some t;
  inv_unlock : ∀ t, pc_of σ t = UnlockBody → _writerThreadId (obj σ) = Some t;
  inv_try : ∀ t, pc_of σ t = TryCas → _writerThreadId (obj σ) ≠ Some t;
  inv_excl : ∀ t, holds_exclusive σ t → _readersOwnership (obj σ) = ∅;
  inv_depth : _writerThreadId (obj σ) = None → _writersOwnership (obj σ) = 1
}.

(** [_waitingWriters] counts the waiting threads, all of them known threads. *)
Definition Counted (threads : gset tid) (σ : sys) : Prop :=
  _waitingWriters (obj σ) = Z.of_nat (size (waiting_set (pcs σ)))
  ∧ waiting_set (pcs σ) ⊆ threads.

(** The reentrancy law of the specification for [n] nested acquisitions:
    [n] calls of [acquire] from state UNLOCKED, then [k < n] calls of
    [release] keep the ownership [owned], and the [n]-th gives UNLOCKED back.
    The flags say that a weak compare-and-swap fails spuriously [j] times
    before it behaves like a strong one; [w] and [ws] are arbitrary. *)
Definition roundtrip (acquire release : op)
    (owned : tid → RecursiveSharedMutex → Prop) (n : N) : Prop :=
  ∀ threads σ t j w ws,
    reachable threads σ → unlocked (obj σ) → ready σ t →
    let fl := replicate j true ++ false :: w :: ws in
    ∃ σn, calls n fl t acquire σ = Ok σn (Some RetVoid)
      ∧ (∀ k, (k < n)%N → returns_with (calls k fl t release σn) t (owned t))
      ∧ returns_with (calls n fl t release σn) t unlocked.

Definition owns_exclusive (t : tid) (s : RecursiveSharedMutex) : Prop :=
  _writerThreadId s = Some t.

Definition owns_shared (t : tid) (s : RecursiveSharedMutex) : Prop :=
  is_Some (_readersOwnership s !! t).

(** A single-threaded-at-a-time scenario: the calls of [l] one after the
    other, each run alone to its return with the flags [ws]. *)
Definition script (l : list (tid * op)) (ws : list bool) (σ : sys)
  : exec_result :=
  foldl (λ r c, and_then r (call ws c.1 c.2)) (Ok σ (Some RetVoid)) l.

(** A result that, if it is a state, is a reachable one. *)
Definition reachable_result (threads : gset tid) (r : exec_result) : Prop :=
  match r with
  | Ok σ _ => reachable threads σ
  | _ => True
  end.

(** "All counts zero, writer slot empty, reader set empty". *)
Definition all_zero_and_empty (s : RecursiveSharedMutex) : Prop :=
  _waitingWriters s = 0 ∧ _writersOwnership s = 0
  ∧ map_Forall (λ _ d, d = 0) (_readersOwnership s)
  ∧ _writerThreadId s = None ∧ _readersOwnership s = ∅.

(** Two small states used as examples: thread 1 holds the lock exclusively
    at depth 1; thread 1 has announced itself as a writer and is about to
    try its compare-and-swap. *)
Definition held_by_1 : sys :=
  Sys (set_writerThreadId (Some 1%nat) RecursiveSharedMutex_new) None
      {[1%nat := Idle]}.

Definition writer_1_waiting : sys :=
  Sys (set_waitingWriters 1 RecursiveSharedMutex_new) None
      {[1%nat := LockSpin]}.

(** Thread 2 holds the lock shared at depth 1. *)
Definition read_by_2 : sys :=
  Sys (set_readersOwnership {[2%nat := 1]} RecursiveSharedMutex_new) None
      {[2%nat := Idle]}.

(** Thread 2 holds the lock shared at depth 2. *)
Definition read_twice_by_2 : sys :=
  Sys (set_readersOwnership {[2%nat := 2]} RecursiveSharedMutex_new) None
      {[2%nat := Idle]}.

(** What the control points say about the reader set and about [_mtx]: a
    thread that passed the assertion of line 53 and is still inside [lock]
    has no reader-set entry, and [_mtx] is held between two blocks only by a
    thread between the two blocks of [try_lock]. *)
Record Owned (σ : sys) : Prop := {
  own_waiting : ∀ t, waiting (pc_of σ t) = true →
                     _readersOwnership (obj σ) !! t = None;
  own_mtx : ∀ t, mtx σ = Some t ↔ pc_of σ t = TryCas
}.

(** Every stored reader depth is at least 1. *)
Definition readers_positive (s : RecursiveSharedMutex) : Prop :=
  map_Forall (λ _ d, 1 <= d) (_readersOwnership s).

(** Unfold [exec] at an event and split on every test of the blocks. *)
Ltac exec_cases H :=
  unfold exec, guarded, holding, unguarded, commit in H;
  unfold lock_enter, lock_cas, lock_drain, try_lock_check, try_lock_cas,
    lock_shared_enter, lock_shared_wait, unlock_assert, unlock_body,
    unlock_shared_body, writer_is, size_is_zero in H;
  repeat (case_match; simplify_eq); simplify_eq;
  unfold pc_of in *; simpl in *;
  repeat case_bool_decide; simplify_eq.

(** [lia] on goals with [mod] by the constant [2 ^ 32]. *)
Ltac lia32 :=
  unfold incr32, decr32, is_uint32, UINT32_MOD in *;
  change (2 ^ 32) with 4294967296 in *;
  Z.div_mod_to_equations; lia.

(** * Properties *)

(** ** 32-bit arithmetic and the reader map *)

Lemma incr32_uint32 x : is_uint32 (incr32 x).
Proof. lia32. Qed.

Lemma decr32_uint32 x : is_uint32 (decr32 x).
Proof. lia32. Qed.

Lemma decr32_small x : 1 <= x → x <= UINT32_MOD → decr32 x = x - 1.
Proof. intros. lia32. Qed.

Lemma size_zero_empty (m : gmap tid Z) : size m = 0%nat → m = ∅.
Proof. apply map_size_empty_inv. Qed.

Lemma count_empty t : count t ∅ = 0.
Proof. reflexivity. Qed.

Lemma count_Some t (m : gmap tid Z) d : m !! t = Some d → count t m = 1.
Proof. unfold count. by intros ->. Qed.

Lemma count_None t (m : gmap tid Z) : m !! t = None → count t m = 0.
Proof. unfold count. by intros ->. Qed.

Lemma pc_of_commit s m (ps : gmap tid pc) t p t' :
  pc_of (Sys s m (<[t := p]> ps)) t'
  = if decide (t = t') then p else default Idle (ps !! t').
Proof. unfold pc_of; simpl. rewrite lookup_insert. by case_decide. Qed.

(** ** The slot invariant *)

Section slot_invariant.

Lemma init_Inv : Inv init.
Proof.
  split; try done; unfold pc_of; simpl; intros t; rewrite lookup_empty; try done.
Qed.

(** Every block keeps [Inv].  After the split into the blocks' cases, the
    fields on control points follow from the same fields before the step, a
    free slot keeps depth 1 because only [unlock] at depth 1 frees it, and
    a completed writer sees no reader because the only blocks that complete
    an acquisition have just seen the reader set empty. *)
Lemma exec_Inv e σ σ' r : Inv σ → exec e σ = Ok σ' r → Inv σ'.
Proof.
  intros [I1 I2 I3 I4 I5] H. unfold holds_exclusive in I4.
  destruct σ as [[ww sl wo rd] m ps].
  exec_cases H.
  all: repeat match goal with
       | Hp : default Idle _ = UnlockBody |- _ =>
           pose proof (I2 _ Hp); revert Hp
       | Hp : default Idle _ = TryCas |- _ =>
           pose proof (I3 _ Hp); revert Hp
       end; intros; simplify_eq.
  all: split; unfold holds_exclusive; simpl; unfold pc_of; simpl.
  all: try (intros t' Hp; rewrite lookup_insert in Hp; case_decide;
            simplify_eq/=;
            first [ by eauto
                  | pose proof (I1 _ Hp); congruence
                  | pose proof (I2 _ Hp); congruence
                  | pose proof (I3 _ Hp); congruence ]).
  all: try (by intros Hs; simplify_eq; eauto).
  all: intros t' [Hs Ha]; simplify_eq; rewrite lookup_insert in Ha;
    case_decide; simplify_eq/=.
  all: try (by eauto using size_zero_empty).
  all: try (by eapply I4; split; eauto;
            match goal with Hp : default Idle _ = _ |- _ => rewrite Hp end).
  all: match goal with
       | H : count _ _ ≠ 0 |- _ => destruct H
       | H : count _ _ = 1 |- _ => exfalso; revert H
       end.
  all: by rewrite (I4 _ (conj eq_refl Ha)).
Qed.

Lemma reachable_Inv threads σ : reachable threads σ → Inv σ.
Proof.
  induction 1 as [|σ e σ' r _ IH _ Hstep]; eauto using init_Inv, exec_Inv.
Qed.

End slot_invariant.

(** ** The fields stay 32-bit values *)

Lemma init_wf : wf (obj init).
Proof.
  split; [|split]; simpl; try (unfold is_uint32, UINT32_MOD; lia).
  apply map_Forall_empty.
Qed.

Lemma insert_pair_Forall (P : tid → Z → Prop) t d (m : gmap tid Z) :
  P t d → map_Forall P m → map_Forall P (insert_pair t d m).
Proof.
  intros Hd Hm. unfold insert_pair. destruct (m !! t); [done|].
  by apply map_Forall_insert_2.
Qed.

Lemma exec_wf e σ σ' r : wf (obj σ) → exec e σ = Ok σ' r → wf (obj σ').
Proof.
  intros (Hww & Hwo & Hrd) H. destruct σ as [[ww sl wo rd] m ps].
  exec_cases H.
  all: split; [|split]; simpl; try assumption.
  all: try apply incr32_uint32; try apply decr32_uint32.
  all: try (apply map_Forall_insert_2; [|assumption]).
  all: try apply incr32_uint32; try apply decr32_uint32.
  - by apply map_Forall_delete.
  - apply insert_pair_Forall; [|done]. unfold is_uint32, UINT32_MOD. lia.
Qed.

Lemma reachable_wf threads σ : reachable threads σ → wf (obj σ).
Proof.
  induction 1 as [|σ e σ' r _ IH _ Hstep]; eauto using init_wf, exec_wf.
Qed.

(** C1. Mutual exclusion: in every state the interleaved threads can reach,
    two threads that both hold exclusive ownership are the same thread, and
    while a thread holds exclusive ownership (it is in the writer slot and
    its acquisition is complete) the reader set is empty, so no other thread
    holds shared ownership. *)
Theorem mutual_exclusion threads σ t :
  reachable threads σ →
  holds_exclusive σ t →
  (∀ t', holds_exclusive σ t' → t' = t)
  ∧ _readersOwnership (obj σ) = ∅
  ∧ (∀ t', t' ≠ t → ¬ holds_shared σ t').
Proof.
  intros Hreach Ht. pose proof (reachable_Inv _ _ Hreach) as I.
  pose proof (inv_excl _ I _ Ht) as Hrd.
  split; [|split]; [|done|].
  - intros t' [Hs' _]. destruct Ht as [Hs _]. congruence.
  - intros t' _ [d Hd]. unfold holds_shared in *. rewrite Hrd in Hd.
    by rewrite lookup_empty in Hd.
Qed.

(** ** Writer preference *)

Section writer_preference.

Variable threads : gset tid.
(** [_waitingWriters] is 32 bits wide; it counts threads as long as there
    are fewer than [2 ^ 32] of them. *)
Hypothesis threads_bound : Z.of_nat (size threads) < UINT32_MOD.

Lemma elem_of_waiting_set (ps : gmap tid pc) t :
  t ∈ waiting_set ps ↔ waiting (default Idle (ps !! t)) = true.
Proof.
  unfold waiting_set. rewrite elem_of_dom. split.
  - intros [p Hp]. apply map_lookup_filter_Some in Hp as [-> Hp]. done.
  - intros Hw. destruct (ps !! t) as [p|] eqn:Hp; [|done].
    exists p. by apply map_lookup_filter_Some.
Qed.

Lemma waiting_set_insert (ps : gmap tid pc) t p :
  waiting_set (<[t := p]> ps)
  = if waiting p then {[t]} ∪ waiting_set ps else waiting_set ps ∖ {[t]}.
Proof.
  apply set_eq. intros t'. rewrite elem_of_waiting_set, lookup_insert.
  destruct (waiting p) eqn:Hp.
  - rewrite elem_of_union, elem_of_singleton, elem_of_waiting_set.
    case_decide; simplify_eq/=; naive_solver.
  - rewrite elem_of_difference, elem_of_singleton, elem_of_waiting_set.
    case_decide; simplify_eq/=; [rewrite Hp|]; naive_solver.
Qed.

(** Moving one thread to another control point changes the number of
    waiting threads by what that thread contributes. *)
Lemma waiting_set_size (ps : gmap tid pc) t p :
  (size (waiting_set (<[t := p]> ps))
   + (if waiting (default Idle (ps !! t)) then 1 else 0)
   = size (waiting_set ps) + (if waiting p then 1 else 0))%nat.
Proof.
  rewrite waiting_set_insert.
  pose proof (elem_of_waiting_set ps t) as Ht.
  destruct (waiting p), (waiting (default Idle (ps !! t))).
  - replace ({[t]} ∪ waiting_set ps) with (waiting_set ps); [done|].
    apply set_eq. intros t'. rewrite elem_of_union, elem_of_singleton.
    naive_solver.
  - rewrite size_union, size_singleton; [lia|].
    apply disjoint_singleton_l. intros Hin. apply Ht in Hin. done.
  - assert ({[t]} ⊆ waiting_set ps) as Hsub.
    { apply singleton_subseteq_l, Ht. done. }
    pose proof (size_union_alt {[t]} (waiting_set ps)) as Hsz.
    rewrite size_singleton in Hsz.
    replace ({[t]} ∪ waiting_set ps) with (waiting_set ps) in Hsz; [lia|].
    apply set_eq. intros t'. rewrite elem_of_union, elem_of_singleton.
    split; [auto|]. intros [->|]; [|done]. by apply Ht.
  - replace (waiting_set ps ∖ {[t]}) with (waiting_set ps); [done|].
    apply set_eq. intros t'. rewrite elem_of_difference, elem_of_singleton.
    split; [|naive_solver]. intros Hin. split; [done|]. intros ->.
    apply Ht in Hin. done.
Qed.

Lemma waiting_set_subseteq (ps : gmap tid pc) t p :
  t ∈ threads → waiting_set ps ⊆ threads →
  waiting_set (<[t := p]> ps) ⊆ threads.
Proof.
  intros Ht Hsub. rewrite waiting_set_insert.
  destruct (waiting p); set_solver.
Qed.

Lemma init_Counted : Counted threads init.
Proof.
  split; simpl; unfold waiting_set; rewrite map_filter_empty, dom_empty_L.
  - done.
  - apply empty_subseteq.
Qed.

Lemma exec_Counted e σ σ' r :
  ev_thread e ∈ threads →
  Counted threads σ → exec e σ = Ok σ' r → Counted threads σ'.
Proof.
  intros Hin [Hww Hsub] H. destruct σ as [[ww sl wo rd] m ps].
  pose proof (subseteq_size _ _ Hsub) as Hle.
  destruct e as [t o|t b]; simpl in Hin.
  all: exec_cases H.
  all: split; simpl; [|by apply waiting_set_subseteq].
  all: match goal with
       | |- context [<[?t := ?p]> ?ps] =>
           pose proof (waiting_set_size ps t p) as Hsz;
           pose proof (waiting_set_subseteq ps t p Hin Hsub) as Hsub';
           apply subseteq_size in Hsub'
       end.
  all: match goal with
       | Hp : default Idle _ = _ |- _ => rewrite Hp in Hsz
       end; simpl in Hsz.
  all: lia32.
Qed.

Lemma reachable_Counted σ : reachable threads σ → Counted threads σ.
Proof.
  induction 1 as [|σ e σ' r _ IH Hin Hstep];
    eauto using init_Counted, exec_Counted.
Qed.

(** A waiting writer keeps the counter away from zero. *)
Lemma waiting_writer_counted σ w :
  reachable threads σ → waiting (pc_of σ w) = true →
  _waitingWriters (obj σ) ≠ 0.
Proof.
  intros Hreach Hw. destruct (reachable_Counted _ Hreach) as [Hww _].
  assert (w ∈ waiting_set (pcs σ)) as Hin by by apply elem_of_waiting_set.
  assert (size (waiting_set (pcs σ)) ≠ 0%nat) as Hsz.
  { intros Hz. apply size_empty_inv in Hz. set_solver. }
  lia.
Qed.

End writer_preference.

(** The only block that gives a thread a reader-set entry it did not have is
    the waiting loop of [lock_shared], run by that thread, when it finds the
    counter at zero and the slot empty. *)
Lemma new_reader_admitted e σ σ' r t d :
  exec e σ = Ok σ' r →
  _readersOwnership (obj σ) !! t = None →
  _readersOwnership (obj σ') !! t = Some d →
  (∃ b, e = Run t b) ∧ pc_of σ t = SharedWait
  ∧ _waitingWriters (obj σ) = 0 ∧ _writerThreadId (obj σ) = None
  ∧ d = 1 ∧ r = Some RetVoid.
Proof.
  intros H Hnone Hsome. destruct σ as [[ww sl wo rd] m ps].
  destruct e as [t0 o|t0 b]; exec_cases H.
  all: try congruence.
  - (* lock_shared, nested reader *)
    destruct (decide (t0 = t)) as [->|Hne].
    + by rewrite (count_None _ _ Hnone) in *.
    + rewrite lookup_insert_ne in Hsome by done. congruence.
  - (* unlock_shared, nested reader *)
    destruct (decide (t0 = t)) as [->|Hne].
    + by rewrite (count_None _ _ Hnone) in *.
    + rewrite lookup_insert_ne in Hsome by done. congruence.
  - (* unlock_shared, last level *)
    rewrite lookup_delete in Hsome. case_decide; congruence.
  - (* lock_shared, waiting loop *)
    unfold insert_pair in Hsome.
    destruct (decide (t0 = t)) as [->|Hne].
    + rewrite Hnone, lookup_insert_eq in Hsome. simplify_eq. eauto 10.
    + destruct (rd !! t0); [congruence|].
      rewrite lookup_insert_ne in Hsome by done. congruence.
Qed.

(** C2. Writer preference: a step gives thread [t] a new reader-set entry
    only if it is [t]'s waiting loop of [lock_shared] run in a state with
    waiting-writer count 0 and empty writer slot, and then the entry has
    depth 1 and the call returns; so while any thread [w] is between the
    increment of the count in [lock] and the completion of its acquisition,
    no step gives a thread without a reader-set entry one. *)
Theorem writer_preference threads σ e σ' r :
  Z.of_nat (size threads) < UINT32_MOD →
  reachable threads σ →
  exec e σ = Ok σ' r →
  (∀ t d, _readersOwnership (obj σ) !! t = None →
          _readersOwnership (obj σ') !! t = Some d →
          (∃ b, e = Run t b) ∧ pc_of σ t = SharedWait
          ∧ _waitingWriters (obj σ) = 0 ∧ _writerThreadId (obj σ) = None
          ∧ d = 1 ∧ r = Some RetVoid)
  ∧ (∀ w, waiting (pc_of σ w) = true →
          ∀ t, _readersOwnership (obj σ) !! t = None →
               _readersOwnership (obj σ') !! t = None).
Proof.
  intros Hbound Hreach Hstep. split.
  - intros t d. by apply new_reader_admitted.
  - intros w Hw t Hnone.
    destruct (_readersOwnership (obj σ') !! t) as [d|] eqn:Hsome; [|done].
    destruct (new_reader_admitted _ _ _ _ _ _ Hstep Hnone Hsome)
      as (_ & _ & Hzero & _).
    by destruct (waiting_writer_counted threads Hbound σ w).
Qed.

(** ** One call at a time *)

(** Evaluate the next block of a call whose thread and control point are
    known. *)
Ltac step_block :=
  unfold call, exec, guarded, holding, unguarded, commit; simpl;
  rewrite ?pc_of_commit, ?decide_True by done;
  repeat match goal with
  | H : pc_of _ _ = _ |- _ => rewrite H
  | H : mtx _ = _ |- _ => rewrite H
  | H : _writerThreadId _ = _ |- _ => rewrite H
  end; simpl.

Lemma ready_commit s (ps : gmap tid pc) t : ready (Sys s None (<[t := Idle]> ps)) t.
Proof. split; [|done]. by rewrite pc_of_commit, decide_True. Qed.

#[local] Hint Resolve ready_commit : core.

(** C3. Reentrant fast path of [lock]: called by the thread that is in the
    writer slot, [lock] returns after its first block with the writer
    recursion depth incremented once (a 32-bit increment, [depth + 1] below
    the top value) and the reader set, the waiting-writer count and the
    writer slot as they were. *)
Theorem lock_reentrant t ws σ :
  ready σ t →
  _writerThreadId (obj σ) = Some t →
  ∃ σ', call ws t Lock σ = Ok σ' (Some RetVoid)
    ∧ exec (Call t Lock) σ = Ok σ' (Some RetVoid)
    ∧ _writersOwnership (obj σ') = incr32 (_writersOwnership (obj σ))
    ∧ (is_uint32 (_writersOwnership (obj σ) + 1) →
       _writersOwnership (obj σ') = _writersOwnership (obj σ) + 1)
    ∧ _readersOwnership (obj σ') = _readersOwnership (obj σ)
    ∧ _waitingWriters (obj σ') = _waitingWriters (obj σ)
    ∧ _writerThreadId (obj σ') = _writerThreadId (obj σ)
    ∧ ready σ' t.
Proof.
  intros [Hpc Hm] Hs. step_block.
  unfold lock_enter, writer_is. rewrite Hs, bool_decide_eq_true_2 by done.
  eexists. repeat split; simpl; eauto.
  - intros Hr. unfold incr32. apply Z.mod_small, Hr.
  - by rewrite pc_of_commit, decide_True.
Qed.

(** *** What each call does, case by case *)

Section call_cases.

Variables (t : tid) (σ : sys).
Hypothesis Hready : ready σ t.

Ltac start :=
  destruct Hready as [Hpc Hm]; destruct σ as [[ww sl wo rd] m ps];
  simpl in *; subst; step_block.

Ltac finish := eexists; split; [reflexivity|]; split; simpl; eauto.

Lemma lock_fast ws :
  _writerThreadId (obj σ) = Some t →
  returns (call ws t Lock σ) t RetVoid
    (set_writersOwnership (incr32 (_writersOwnership (obj σ))) (obj σ)).
Proof.
  intros Hs. start. unfold lock_enter, writer_is; simpl.
  rewrite bool_decide_eq_true_2 by done. finish.
Qed.

Lemma try_lock_fast ws :
  _writerThreadId (obj σ) = Some t →
  returns (call ws t TryLock σ) t (RetBool true)
    (set_writersOwnership (incr32 (_writersOwnership (obj σ))) (obj σ)).
Proof.
  intros Hs. start. unfold try_lock_check, writer_is; simpl.
  rewrite bool_decide_eq_true_2 by done. finish.
Qed.

Lemma try_lock_slow w ws :
  _writerThreadId (obj σ) ≠ Some t →
  returns (call (w :: ws) t TryLock σ) t
    (RetBool (size_is_zero (_readersOwnership (obj σ))
              && bool_decide (_writerThreadId (obj σ) = None) && negb w))
    (if size_is_zero (_readersOwnership (obj σ))
        && bool_decide (_writerThreadId (obj σ) = None) && negb w
     then set_writerThreadId (Some t) (obj σ) else (obj σ)).
Proof.
  intros Hs. start. unfold try_lock_check, writer_is; simpl.
  rewrite bool_decide_eq_false_2 by done. step_block.
  rewrite bool_decide_eq_true_2 by done. unfold try_lock_cas; simpl.
  destruct (size_is_zero rd), sl, w; simpl; finish.
Qed.


Lemma lock_shared_nested ws d :
  _writerThreadId (obj σ) ≠ Some t →
  _readersOwnership (obj σ) !! t = Some d →
  returns (call ws t LockShared σ) t RetVoid
    (set_readersOwnership (<[t := incr32 d]> (_readersOwnership (obj σ))) (obj σ)).
Proof.
  intros Hs Hd. start. unfold lock_shared_enter, writer_is, at_; simpl.
  rewrite bool_decide_eq_false_2 by done.
  rewrite (count_Some _ _ _ Hd), Hd. finish.
Qed.

Lemma lock_shared_admitted w ws :
  _writerThreadId (obj σ) = None →
  _waitingWriters (obj σ) = 0 →
  _readersOwnership (obj σ) !! t = None →
  returns (call (w :: ws) t LockShared σ) t RetVoid
    (set_readersOwnership (<[t := 1]> (_readersOwnership (obj σ))) (obj σ)).
Proof.
  intros Hs Hw Hd. start. unfold lock_shared_enter, writer_is; simpl.
  rewrite (count_None _ _ Hd). simpl. step_block.
  unfold lock_shared_wait, insert_pair; simpl. rewrite Hd. finish.
Qed.

Lemma unlock_nested w ws :
  _writerThreadId (obj σ) = Some t →
  _writersOwnership (obj σ) ≠ 1 →
  returns (call (w :: ws) t Unlock σ) t RetVoid
    (set_writersOwnership (decr32 (_writersOwnership (obj σ))) (obj σ)).
Proof.
  intros Hs Hd. start. unfold unlock_assert, writer_is; simpl.
  rewrite bool_decide_eq_true_2 by done. step_block.
  unfold unlock_body; simpl. rewrite bool_decide_eq_true_2 by done. finish.
Qed.

Lemma unlock_last w ws :
  _writerThreadId (obj σ) = Some t →
  _writersOwnership (obj σ) = 1 →
  returns (call (w :: ws) t Unlock σ) t RetVoid (set_writerThreadId None (obj σ)).
Proof.
  intros Hs Hd. start. unfold unlock_assert, writer_is; simpl.
  rewrite bool_decide_eq_true_2 by done. step_block.
  unfold unlock_body; simpl. finish.
Qed.


Lemma unlock_shared_writer ws :
  _writerThreadId (obj σ) = Some t →
  returns (call ws t UnlockShared σ) t RetVoid
    (set_writersOwnership (decr32 (_writersOwnership (obj σ))) (obj σ)).
Proof.
  intros Hs. start. unfold unlock_shared_body, writer_is; simpl.
  rewrite bool_decide_eq_true_2 by done. finish.
Qed.

Lemma unlock_shared_nested ws d :
  _writerThreadId (obj σ) ≠ Some t →
  _readersOwnership (obj σ) !! t = Some d → d ≠ 1 →
  returns (call ws t UnlockShared σ) t RetVoid
    (set_readersOwnership (<[t := decr32 d]> (_readersOwnership (obj σ))) (obj σ)).
Proof.
  intros Hs Hd Hne. start. unfold unlock_shared_body, writer_is, at_; simpl.
  rewrite bool_decide_eq_false_2 by done.
  rewrite (count_Some _ _ _ Hd), Hd. simpl.
  rewrite bool_decide_eq_true_2 by done. finish.
Qed.

Lemma unlock_shared_last ws :
  _writerThreadId (obj σ) ≠ Some t →
  _readersOwnership (obj σ) !! t = Some 1 →
  returns (call ws t UnlockShared σ) t RetVoid
    (set_readersOwnership (delete t (_readersOwnership (obj σ))) (obj σ)).
Proof.
  intros Hs Hd. start. unfold unlock_shared_body, writer_is, at_; simpl.
  rewrite bool_decide_eq_false_2 by done.
  rewrite (count_Some _ _ _ Hd), Hd. simpl. finish.
Qed.

Lemma unlock_shared_no_entry ws :
  _writerThreadId (obj σ) ≠ Some t →
  _readersOwnership (obj σ) !! t = None →
  call ws t UnlockShared σ = Aborted.
Proof.
  intros Hs Hd. start. unfold unlock_shared_body, writer_is; simpl.
  rewrite bool_decide_eq_false_2 by done.
  by rewrite (count_None _ _ Hd).
Qed.

End call_cases.

(** The slow path of [lock] on a free lock: any number [j] of spurious
    failures of the weak compare-and-swap, then the claim of the slot, then
    one look at the empty reader set. *)
Lemma spin_alone t j rest σ :
  pc_of σ t = LockSpin →
  _writerThreadId (obj σ) = None →
  ∃ σ', run_alone (replicate j true ++ rest) t σ = run_alone rest t σ'
    ∧ obj σ' = obj σ ∧ mtx σ' = mtx σ ∧ pc_of σ' t = LockSpin.
Proof.
  revert σ. induction j as [|j IH]; intros σ Hpc Hs; [by eauto|].
  simpl. unfold exec, unguarded, lock_cas, commit. rewrite Hpc, Hs.
  edestruct (IH (Sys (obj σ) (mtx σ) (<[t := LockSpin]> (pcs σ))))
    as (σ' & Hrun & Hobj & Hmtx & Hpc'); [|done|].
  - by rewrite pc_of_commit, decide_True.
  - exists σ'. by rewrite Hrun.
Qed.

Lemma lock_acquire t σ j w ws :
  ready σ t →
  _writerThreadId (obj σ) = None →
  _readersOwnership (obj σ) = ∅ →
  returns (call (replicate j true ++ false :: w :: ws) t Lock σ) t RetVoid
    (set_waitingWriters (decr32 (incr32 (_waitingWriters (obj σ))))
       (set_writerThreadId (Some t) (obj σ))).
Proof.
  intros [Hpc Hm] Hs Hrd. destruct σ as [[ww sl wo rd] m ps]; simpl in *; subst.
  step_block. unfold lock_enter, writer_is; simpl.
  rewrite count_empty, bool_decide_eq_true_2 by done; simpl.
  edestruct (spin_alone t j (false :: w :: ws)) as (σ' & -> & Hobj & Hmtx & Hpc');
    [by rewrite pc_of_commit, decide_True|done|].
  destruct σ' as [s' m' ps']; simpl in *; subst.
  step_block. unfold lock_cas; simpl. step_block.
  eexists; split; [reflexivity|]. split; simpl; eauto.
Qed.

(** *** Calls in a row *)

Lemma calls_succ n ws t o σ :
  calls (N.succ n) ws t o σ = and_then (calls n ws t o σ) (call ws t o).
Proof. unfold calls. by rewrite N.iter_succ. Qed.

(** The rule for a loop of calls: a predicate on the call count and the
    object that holds at the start and that every call takes one step. *)
Lemma calls_invariant (I : N → RecursiveSharedMutex → Prop) n ws t o σ :
  ready σ t →
  I 0%N (obj σ) →
  (∀ k σk, (k < n)%N → ready σk t → I k (obj σk) →
           returns_with (call ws t o σk) t (I (N.succ k))) →
  returns_with (calls n ws t o σ) t (I n).
Proof.
  intros Hready H0. induction n as [|n IH] using N.peano_ind; intros Hstep.
  - by exists σ.
  - destruct IH as (σn & Hn & HI & Hrn).
    { intros k σk Hk. apply Hstep. lia. }
    rewrite calls_succ, Hn. simpl. apply Hstep; [lia|done..].
Qed.

Lemma returns_returns_with res t s (P : RecursiveSharedMutex → Prop) :
  returns res t RetVoid s → P s → returns_with res t P.
Proof. intros (σ' & -> & <- & Hr) HP. by exists σ'. Qed.

(** *** Calls run alone stay among the reachable states *)

Lemma run_alone_cons w ws t σ :
  run_alone (w :: ws) t σ
  = match exec (Run t w) σ with
    | Ok σ' None => run_alone ws t σ'
    | r => r
    end.
Proof. reflexivity. Qed.

Lemma run_alone_reachable threads ws t σ :
  t ∈ threads → reachable threads σ →
  reachable_result threads (run_alone ws t σ).
Proof.
  intros Ht. revert σ. induction ws as [|w ws IH]; intros σ Hreach; [done|].
  rewrite run_alone_cons.
  destruct (exec (Run t w) σ) as [σ' [r|]| |] eqn:Hstep; simpl; try done.
  - eapply reachable_step; [exact Hreach| |exact Hstep]. done.
  - apply IH. eapply reachable_step; [exact Hreach| |exact Hstep]. done.
Qed.

Lemma call_reachable threads ws t o σ :
  t ∈ threads → reachable threads σ →
  reachable_result threads (call ws t o σ).
Proof.
  intros Ht Hreach. unfold call.
  destruct (exec (Call t o) σ) as [σ' [r|]| |] eqn:Hstep; simpl; try done.
  - eapply reachable_step; [exact Hreach| |exact Hstep]. done.
  - apply run_alone_reachable; [done|].
    eapply reachable_step; [exact Hreach| |exact Hstep]. done.
Qed.

Lemma script_reachable threads l ws σ :
  Forall (λ c, c.1 ∈ threads) l → reachable threads σ →
  reachable_result threads (script l ws σ).
Proof.
  intros Hl Hreach. unfold script.
  assert (reachable_result threads (Ok σ (Some RetVoid))) as Hacc by done.
  revert Hacc. generalize (Ok σ (Some RetVoid)).
  induction Hl as [|[t o] l Ht _ IH]; intros acc Hacc; [done|].
  simpl. apply IH. destruct acc as [σ' [r|]| |]; simpl; try done.
  by apply call_reachable.
Qed.

(** ** The calls of the interface *)

(** C4. [unlock] called by the thread in the writer slot returns; it touches
    neither the reader set nor the waiting-writer count; with a writer
    recursion depth greater than 1 it decrements the depth by 1 and leaves
    the thread in the slot; with depth 1 it empties the slot and leaves the
    stored depth at 1 for the next owner. *)
Theorem unlock_semantics t w ws σ :
  ready σ t →
  _writerThreadId (obj σ) = Some t →
  is_uint32 (_writersOwnership (obj σ)) →
  ∃ σ', call (w :: ws) t Unlock σ = Ok σ' (Some RetVoid)
    ∧ ready σ' t
    ∧ _readersOwnership (obj σ') = _readersOwnership (obj σ)
    ∧ _waitingWriters (obj σ') = _waitingWriters (obj σ)
    ∧ (1 < _writersOwnership (obj σ) →
       _writersOwnership (obj σ') = _writersOwnership (obj σ) - 1
       ∧ _writerThreadId (obj σ') = Some t)
    ∧ (_writersOwnership (obj σ) = 1 →
       _writerThreadId (obj σ') = None ∧ _writersOwnership (obj σ') = 1).
Proof.
  intros Hready Hs Hd.
  destruct (decide (_writersOwnership (obj σ) = 1)) as [Hone|Hne].
  - destruct (unlock_last t σ Hready w ws Hs Hone) as (σ' & Hcall & Hobj & Hr).
    exists σ'. rewrite Hobj. simpl.
    split; [done|]. split; [done|]. repeat split; try done; lia.
  - destruct (unlock_nested t σ Hready w ws Hs Hne) as (σ' & Hcall & Hobj & Hr).
    exists σ'. rewrite Hobj. simpl.
    split; [done|]. split; [done|]. repeat split; try done.
    apply decr32_small; unfold is_uint32 in Hd; lia.
Qed.

(** C5. [unlock_shared]: called by the thread in the writer slot it returns
    with the writer recursion depth decremented (32-bit decrement,
    [depth - 1] from depth 1 on) and the slot, the reader set and the
    waiting-writer count as they were; called by another thread it fails its
    assertion unless the caller has a reader-set entry, and otherwise
    returns with an entry of depth greater than 1 decremented by 1, an entry
    of depth 1 removed, and the other entries and the three other fields as
    they were. *)
Theorem unlock_shared_semantics t ws σ :
  ready σ t →
  wf (obj σ) →
  (_writerThreadId (obj σ) = Some t →
   ∃ σ', call ws t UnlockShared σ = Ok σ' (Some RetVoid)
     ∧ ready σ' t
     ∧ _writersOwnership (obj σ') = (_writersOwnership (obj σ) - 1) mod 2 ^ 32
     ∧ (1 <= _writersOwnership (obj σ) →
        _writersOwnership (obj σ') = _writersOwnership (obj σ) - 1)
     ∧ _writerThreadId (obj σ') = Some t
     ∧ _readersOwnership (obj σ') = _readersOwnership (obj σ)
     ∧ _waitingWriters (obj σ') = _waitingWriters (obj σ))
  ∧ (_writerThreadId (obj σ) ≠ Some t →
     match _readersOwnership (obj σ) !! t with
     | None => call ws t UnlockShared σ = Aborted
     | Some d =>
         ∃ σ', call ws t UnlockShared σ = Ok σ' (Some RetVoid)
           ∧ ready σ' t
           ∧ (1 < d → _readersOwnership (obj σ') !! t = Some (d - 1))
           ∧ (d = 1 → _readersOwnership (obj σ') !! t = None)
           ∧ (∀ u, u ≠ t → _readersOwnership (obj σ') !! u
                           = _readersOwnership (obj σ) !! u)
           ∧ _writerThreadId (obj σ') = _writerThreadId (obj σ)
           ∧ _writersOwnership (obj σ') = _writersOwnership (obj σ)
           ∧ _waitingWriters (obj σ') = _waitingWriters (obj σ)
     end).
Proof.
  intros Hready (_ & Hwo & Hrd). split.
  - intros Hs.
    destruct (unlock_shared_writer t σ Hready ws Hs) as (σ' & Hc & Hobj & Hr).
    exists σ'. rewrite Hobj. simpl.
    split; [done|]. split; [done|]. split; [done|]. split; [|done].
    intros Hge. apply decr32_small; unfold is_uint32 in Hwo; lia.
  - intros Hs. destruct (_readersOwnership (obj σ) !! t) as [d|] eqn:Hd.
    + pose proof (map_Forall_lookup_1 _ _ _ _ Hrd Hd) as Hrange.
      destruct (decide (d = 1)) as [->|Hne].
      * destruct (unlock_shared_last t σ Hready ws Hs Hd)
          as (σ' & Hc & Hobj & Hr).
        exists σ'. rewrite Hobj. simpl.
        split; [done|]. split; [done|]. split; [lia|].
        split; [by rewrite lookup_delete_eq|]. split; [|done].
        intros u Hu. by rewrite lookup_delete_ne.
      * destruct (unlock_shared_nested t σ Hready ws d Hs Hd Hne)
          as (σ' & Hc & Hobj & Hr).
        exists σ'. rewrite Hobj. simpl.
        split; [done|]. split; [done|]. split.
        { intros Hgt. rewrite lookup_insert_eq. f_equal.
          apply decr32_small; unfold is_uint32 in Hrange; lia. }
        split; [done|]. split; [|done].
        intros u Hu. by rewrite lookup_insert_ne.
    + by apply unlock_shared_no_entry.
Qed.

(** C6. [try_lock] returns after at most two blocks, without a loop; called
    by the thread in the writer slot it returns true with the writer
    recursion depth incremented (32-bit increment) and the caller still in
    the slot; otherwise it returns true exactly when the reader set is empty
    and its one compare-and-swap finds the slot empty and does not fail
    spuriously, and then the caller is in the slot and the depth is as it
    was; in every other case it returns false and slot and depth are as they
    were; the waiting-writer count and the reader set are never changed. *)
Theorem try_lock_semantics t w ws σ :
  ready σ t →
  ∃ b σ', call (w :: ws) t TryLock σ = Ok σ' (Some (RetBool b))
    ∧ ready σ' t
    ∧ _waitingWriters (obj σ') = _waitingWriters (obj σ)
    ∧ _readersOwnership (obj σ') = _readersOwnership (obj σ)
    ∧ (_writerThreadId (obj σ) = Some t →
       b = true
       ∧ _writersOwnership (obj σ')
         = (_writersOwnership (obj σ) + 1) mod 2 ^ 32
       ∧ (0 <= _writersOwnership (obj σ) + 1 < 2 ^ 32 →
          _writersOwnership (obj σ') = _writersOwnership (obj σ) + 1)
       ∧ _writerThreadId (obj σ') = Some t)
    ∧ (_writerThreadId (obj σ) ≠ Some t →
       (b = true ↔ _readersOwnership (obj σ) = ∅
                   ∧ _writerThreadId (obj σ) = None ∧ w = false)
       ∧ (b = true → _writerThreadId (obj σ') = Some t)
       ∧ (b = false → _writerThreadId (obj σ') = _writerThreadId (obj σ))
       ∧ _writersOwnership (obj σ') = _writersOwnership (obj σ)).
Proof.
  intros Hready.
  destruct (decide (_writerThreadId (obj σ) = Some t)) as [Hs|Hs].
  - destruct (try_lock_fast t σ Hready (w :: ws) Hs) as (σ' & Hcall & Hobj & Hr).
    exists true, σ'. rewrite Hobj. simpl.
    split; [done|]. split; [done|]. split; [done|]. split; [done|]. split.
    + intros _. split; [done|]. split; [done|]. split; [|done].
      intros Hrange. unfold incr32. by apply Z.mod_small.
    + intros Hne. by destruct Hne.
  - destruct (try_lock_slow t σ Hready w ws Hs) as (σ' & Hcall & Hobj & Hr).
    eexists _, σ'. split; [exact Hcall|]. split; [done|]. rewrite Hobj.
    split; [by case_match|]. split; [by case_match|]. split; [done|].
    intros _. split; [|split; [|split]].
    + unfold size_is_zero.
      rewrite !andb_true_iff, !bool_decide_eq_true, negb_true_iff.
      split.
      * intros [[Hsz Hnone] Hw]. by apply size_zero_empty in Hsz.
      * intros (-> & Hnone & Hw). by rewrite map_size_empty.
    + by intros ->.
    + by intros ->.
    + by case_match.
Qed.

(** C9, as the constructor has it. A freshly constructed lock has
    waiting-writer count 0, stored writer recursion depth 1, an empty writer
    slot and an empty reader set (so no reader depth is stored). *)
Theorem constructor_state :
  _waitingWriters RecursiveSharedMutex_new = 0
  ∧ _writersOwnership RecursiveSharedMutex_new = 1
  ∧ _writerThreadId RecursiveSharedMutex_new = None
  ∧ _readersOwnership RecursiveSharedMutex_new = ∅
  ∧ obj init = RecursiveSharedMutex_new.
Proof. by repeat split. Qed.

(** C9 as stated fails: the stored writer recursion depth of a fresh lock is
    1, not 0. *)
Lemma constructor_not_all_zero : ¬ all_zero_and_empty RecursiveSharedMutex_new.
Proof. intros (_ & Hdepth & _). simpl in Hdepth. lia. Qed.

(** C10. When the thread in the writer slot calls [unlock_shared] at stored
    writer recursion depth 1, the depth becomes 0 and the thread stays in the
    slot; its next [unlock] finds a depth other than 1, decrements the 32-bit
    depth from 0 to [2 ^ 32 - 1], and the thread still stays in the slot. *)
Theorem unlock_shared_underflow t w ws σ :
  ready σ t →
  _writerThreadId (obj σ) = Some t →
  _writersOwnership (obj σ) = 1 →
  ∃ σ1 σ2,
    call ws t UnlockShared σ = Ok σ1 (Some RetVoid)
    ∧ _writersOwnership (obj σ1) = 0
    ∧ _writerThreadId (obj σ1) = Some t
    ∧ call (w :: ws) t Unlock σ1 = Ok σ2 (Some RetVoid)
    ∧ _writersOwnership (obj σ2) = 2 ^ 32 - 1
    ∧ _writerThreadId (obj σ2) = Some t.
Proof.
  intros Hready Hs Hone.
  destruct (unlock_shared_writer t σ Hready ws Hs) as (σ1 & Hc1 & Hobj1 & Hr1).
  assert (_writerThreadId (obj σ1) = Some t) as Hs1 by by rewrite Hobj1.
  assert (_writersOwnership (obj σ1) = 0) as Hd1 by by rewrite Hobj1, Hone.
  destruct (unlock_nested t σ1 Hr1 w ws Hs1) as (σ2 & Hc2 & Hobj2 & Hr2).
  { by rewrite Hd1. }
  exists σ1, σ2. rewrite Hobj2, Hd1. by repeat split.
Qed.

(** C8 on the code. One thread that pairs its calls, [lock], [lock_shared],
    [unlock], [unlock_shared], ends in a reachable state where it is still
    in the writer slot, its acquisition complete, with stored depth 0:
    [unlock] brought the depth from 2 to 1 and [unlock_shared], which
    decrements the writer depth without the test for 1, stored 0. *)
Theorem writer_depth_zero_stored :
  ∃ σ,
    script [(1%nat, Lock); (1%nat, LockShared); (1%nat, Unlock);
            (1%nat, UnlockShared)] [false; false] init
    = Ok σ (Some RetVoid)
    ∧ reachable {[1%nat]} σ
    ∧ holds_exclusive σ 1%nat
    ∧ _writersOwnership (obj σ) = 0.
Proof.
  eexists. split; [vm_compute; reflexivity|]. split; [|by split].
  pose proof (script_reachable {[1%nat]}
    [(1%nat, Lock); (1%nat, LockShared); (1%nat, Unlock); (1%nat, UnlockShared)]
    [false; false] init) as Hreach.
  apply Hreach; [|apply reachable_init].
  repeat constructor; simpl; by apply elem_of_singleton.
Qed.

(** ** Reentrancy and round trip *)

Lemma calls_succ_l n ws t o σ σ1 :
  call ws t o σ = Ok σ1 (Some RetVoid) →
  calls (N.succ n) ws t o σ = calls n ws t o σ1.
Proof. intros Hc. unfold calls. rewrite N.iter_succ_r. simpl. by rewrite Hc. Qed.

Section nesting.

Variables (t : tid) (ws : list bool).

(** [n] more [lock] calls of the writer add [n] to the depth, modulo
    [2 ^ 32]. *)
Lemma nested_lock n d σ :
  ready σ t →
  _writerThreadId (obj σ) = Some t →
  _writersOwnership (obj σ) = d mod UINT32_MOD →
  returns_with (calls n ws t Lock σ) t
    (λ s', _writerThreadId s' = Some t
           ∧ _writersOwnership s' = (d + Z.of_N n) mod UINT32_MOD
           ∧ _readersOwnership s' = _readersOwnership (obj σ)
           ∧ _waitingWriters s' = _waitingWriters (obj σ)).
Proof.
  intros Hready Hs Hd.
  apply (calls_invariant
    (λ k s', _writerThreadId s' = Some t
             ∧ _writersOwnership s' = (d + Z.of_N k) mod UINT32_MOD
             ∧ _readersOwnership s' = _readersOwnership (obj σ)
             ∧ _waitingWriters s' = _waitingWriters (obj σ))); [done| |].
  - repeat split; try done. by rewrite Z.add_0_r.
  - intros k σk _ Hrk (Hsk & Hdk & Hrdk & Hwwk).
    eapply returns_returns_with; [by apply lock_fast|]. simpl.
    repeat split; try done. rewrite Hdk, N2Z.inj_succ. lia32.
Qed.

(** While the depth is not 1, every [unlock] takes one level off. *)
Lemma nested_unlock w k n σ :
  (k < n)%N → (n <= 2 ^ 32)%N →
  ready σ t →
  _writerThreadId (obj σ) = Some t →
  _writersOwnership (obj σ) = Z.of_N n mod UINT32_MOD →
  returns_with (calls k (w :: ws) t Unlock σ) t
    (λ s', _writerThreadId s' = Some t
           ∧ _writersOwnership s' = (Z.of_N n - Z.of_N k) mod UINT32_MOD
           ∧ _readersOwnership s' = _readersOwnership (obj σ)
           ∧ _waitingWriters s' = _waitingWriters (obj σ)).
Proof.
  intros Hk Hn Hready Hs Hd.
  apply (calls_invariant
    (λ k s', _writerThreadId s' = Some t
             ∧ _writersOwnership s' = (Z.of_N n - Z.of_N k) mod UINT32_MOD
             ∧ _readersOwnership s' = _readersOwnership (obj σ)
             ∧ _waitingWriters s' = _waitingWriters (obj σ))); [done| |].
  - repeat split; try done. by rewrite Z.sub_0_r.
  - intros j σj Hj Hrj (Hsj & Hdj & Hrdj & Hwwj).
    eapply returns_returns_with; [apply unlock_nested; try done|].
    + rewrite Hdj. lia32.
    + simpl. repeat split; try done. rewrite Hdj, N2Z.inj_succ. lia32.
Qed.

(** The same two laws for the reader entry of [t]. *)
Lemma nested_lock_shared n d σ :
  ready σ t →
  _writerThreadId (obj σ) = None →
  _readersOwnership (obj σ) = {[t := d mod UINT32_MOD]} →
  returns_with (calls n ws t LockShared σ) t
    (λ s', _writerThreadId s' = None
           ∧ _readersOwnership s' = {[t := (d + Z.of_N n) mod UINT32_MOD]}
           ∧ _waitingWriters s' = _waitingWriters (obj σ)).
Proof.
  intros Hready Hs Hd.
  apply (calls_invariant
    (λ k s', _writerThreadId s' = None
             ∧ _readersOwnership s' = {[t := (d + Z.of_N k) mod UINT32_MOD]}
             ∧ _waitingWriters s' = _waitingWriters (obj σ))); [done| |].
  - repeat split; try done. by rewrite Z.add_0_r.
  - intros k σk _ Hrk (Hsk & Hrdk & Hwwk).
    eapply returns_returns_with.
    + apply lock_shared_nested; [done|by rewrite Hsk|].
      rewrite Hrdk. apply lookup_singleton_eq.
    + simpl. repeat split; try done.
      rewrite Hrdk, insert_singleton_eq, N2Z.inj_succ. f_equal. lia32.
Qed.

Lemma nested_unlock_shared k n σ :
  (k < n)%N → (n <= 2 ^ 32)%N →
  ready σ t →
  _writerThreadId (obj σ) = None →
  _readersOwnership (obj σ) = {[t := Z.of_N n mod UINT32_MOD]} →
  returns_with (calls k ws t UnlockShared σ) t
    (λ s', _writerThreadId s' = None
           ∧ _readersOwnership s'
             = {[t := (Z.of_N n - Z.of_N k) mod UINT32_MOD]}
           ∧ _waitingWriters s' = _waitingWriters (obj σ)).
Proof.
  intros Hk Hn Hready Hs Hd.
  apply (calls_invariant
    (λ k s', _writerThreadId s' = None
             ∧ _readersOwnership s'
               = {[t := (Z.of_N n - Z.of_N k) mod UINT32_MOD]}
             ∧ _waitingWriters s' = _waitingWriters (obj σ))); [done| |].
  - repeat split; try done. by rewrite Z.sub_0_r.
  - intros j σj Hj Hrj (Hsj & Hrdj & Hwwj).
    eapply returns_returns_with.
    + apply unlock_shared_nested; [done|by rewrite Hsj| |].
      * rewrite Hrdj. apply lookup_singleton_eq.
      * lia32.
    + simpl. repeat split; try done.
      rewrite Hrdj, insert_singleton_eq, N2Z.inj_succ. f_equal. lia32.
Qed.

End nesting.

Lemma returns_with_mono res t (P Q : RecursiveSharedMutex → Prop) :
  returns_with res t P → (∀ s, P s → Q s) → returns_with res t Q.
Proof. intros (σ' & Hres & HP & Hr) HPQ. exists σ'. eauto. Qed.

Lemma flags_cons j w (ws : list bool) :
  ∃ w' ws', replicate j true ++ false :: w :: ws = w' :: ws'.
Proof. destruct j; simpl; eauto. Qed.

Section from_unlocked.

Variables (threads : gset tid) (σ : sys) (t : tid).
Variables (j : nat) (w : bool) (ws : list bool).
Hypothesis Hreach : reachable threads σ.
Hypothesis Hunlocked : unlocked (obj σ).
Hypothesis Hready : ready σ t.

Local Abbreviation fl := (replicate j true ++ false :: w :: ws).

(** [n >= 1] calls of [lock] on an unlocked lock: the first one claims the
    slot at the stored depth 1, the others nest. *)
Lemma locks_from_unlocked n :
  (1 <= n)%N →
  returns_with (calls n fl t Lock σ) t
    (λ s', _writerThreadId s' = Some t
           ∧ _writersOwnership s' = Z.of_N n mod UINT32_MOD
           ∧ _readersOwnership s' = ∅
           ∧ _waitingWriters s' = 0).
Proof.
  intros Hn. destruct Hunlocked as (Hs & Hrd & Hww).
  pose proof (inv_depth _ (reachable_Inv _ _ Hreach) Hs) as Hd.
  destruct (lock_acquire t σ j w ws Hready Hs Hrd) as (σ1 & Hc1 & Hobj1 & Hr1).
  rewrite <- (N.succ_pred n) by lia. rewrite (calls_succ_l _ _ _ _ _ _ Hc1).
  eapply returns_with_mono.
  - apply (nested_lock t fl (N.pred n) 1 σ1 Hr1); by rewrite Hobj1.
  - intros s' (Hs' & Hd' & Hrd' & Hww'). rewrite Hobj1 in Hrd', Hww'.
    simpl in *. repeat split; try done.
    + rewrite Hd'. f_equal. lia.
    + by rewrite Hrd'.
    + by rewrite Hww', Hww.
Qed.

(** [n >= 1] calls of [lock_shared] on an unlocked lock: the first one
    inserts the entry at depth 1, the others nest. *)
Lemma shared_locks_from_unlocked n :
  (1 <= n)%N →
  returns_with (calls n fl t LockShared σ) t
    (λ s', _writerThreadId s' = None
           ∧ _readersOwnership s' = {[t := Z.of_N n mod UINT32_MOD]}
           ∧ _waitingWriters s' = 0).
Proof.
  intros Hn. destruct Hunlocked as (Hs & Hrd & Hww).
  destruct (flags_cons j w ws) as (w' & ws' & Hfl).
  destruct (lock_shared_admitted t σ Hready w' ws' Hs Hww)
    as (σ1 & Hc1 & Hobj1 & Hr1); [by rewrite Hrd|].
  rewrite <- Hfl in Hc1.
  rewrite <- (N.succ_pred n) by lia. rewrite (calls_succ_l _ _ _ _ _ _ Hc1).
  eapply returns_with_mono.
  - apply (nested_lock_shared t fl (N.pred n) 1 σ1 Hr1); rewrite Hobj1; simpl;
      [done|]. by rewrite Hrd, insert_empty.
  - intros s' (Hs' & Hrd' & Hww'). rewrite Hobj1 in Hww'. simpl in *.
    repeat split; try done.
    + rewrite Hrd'. do 2 f_equal. lia.
    + by rewrite Hww', Hww.
Qed.

End from_unlocked.

(** C7, within the range of the 32-bit depth. For every [n] with
    [1 <= n <= 2 ^ 32], a thread that calls [lock] [n] times on an unlocked
    lock is still in the writer slot after any [k < n] calls of [unlock], and
    the [n]-th [unlock] leaves the lock UNLOCKED (slot empty, reader set
    empty, waiting-writer count zero); the same holds for [n] calls of
    [lock_shared] and [unlock_shared], the thread keeping its reader-set
    entry until the [n]-th release. *)
Theorem reentrancy_roundtrip n :
  (1 <= n <= 2 ^ 32)%N →
  roundtrip Lock Unlock owns_exclusive n
  ∧ roundtrip LockShared UnlockShared owns_shared n.
Proof.
  intros [Hn1 Hn2]. split.
  - intros threads σ t j w ws Hreach Hunl Hready fl.
    destruct (locks_from_unlocked threads σ t j w ws Hreach Hunl Hready n Hn1)
      as (σn & Hcn & (Hs & Hd & Hrd & Hww) & Hrn).
    exists σn. split; [done|].
    destruct (flags_cons j w ws) as (w' & ws' & Hfl).
    subst fl. rewrite Hfl. split.
    + intros k Hk. eapply returns_with_mono.
      * by apply (nested_unlock t ws' w' k n σn).
      * by intros s' (Hs' & _).
    + rewrite <- (N.succ_pred n) by lia. rewrite calls_succ.
      destruct (nested_unlock t ws' w' (N.pred n) n σn)
        as (σm & -> & (Hsm & Hdm & Hrdm & Hwwm) & Hrm); [lia|done..|].
      simpl. eapply returns_returns_with.
      * apply unlock_last; [done..|]. rewrite Hdm. lia32.
      * repeat split; simpl; congruence.
  - intros threads σ t j w ws Hreach Hunl Hready fl.
    destruct (shared_locks_from_unlocked σ t j w ws Hunl Hready n Hn1)
      as (σn & Hcn & (Hs & Hrd & Hww) & Hrn).
    exists σn. split; [done|]. subst fl. split.
    + intros k Hk. eapply returns_with_mono.
      * by apply (nested_unlock_shared t _ k n σn).
      * intros s' (_ & Hrd' & _). unfold owns_shared.
        rewrite Hrd', lookup_singleton_eq. by eexists.
    + rewrite <- (N.succ_pred n) by lia. rewrite calls_succ.
      destruct (nested_unlock_shared t
                  (replicate j true ++ false :: w :: ws) (N.pred n) n σn)
        as (σm & -> & (Hsm & Hrdm & Hwwm) & Hrm); [lia|done..|].
      simpl. eapply returns_returns_with.
      * apply unlock_shared_last; [done|by rewrite Hsm|].
        rewrite Hrdm, lookup_singleton_eq. f_equal. lia32.
      * repeat split; simpl; [done| |congruence].
        by rewrite Hrdm, delete_singleton_eq.
Qed.

(** C7 as stated fails beyond the 32-bit range: after [2 ^ 32 + 1] calls of
    [lock] the stored depth has wrapped around to 1, and the first [unlock]
    already empties the writer slot. *)
Lemma reentrancy_wraps : ¬ roundtrip Lock Unlock owns_exclusive (2 ^ 32 + 1).
Proof.
  intros Hrt.
  assert (ready init 1%nat) as Hready by done.
  assert (unlocked (obj init)) as Hunl by done.
  destruct (Hrt {[1%nat]} init 1%nat 0%nat false [] (reachable_init _)
              Hunl Hready) as (σn & Hcn & Hkeep & _).
  destruct (locks_from_unlocked {[1%nat]} init 1%nat 0%nat false []
              (reachable_init _) Hunl Hready (2 ^ 32 + 1))
    as (σn' & Hcn' & (Hs & Hd & Hrd & Hww) & Hrn); [by vm_compute|].
  rewrite Hcn in Hcn'. injection Hcn' as <-.
  destruct (Hkeep 1%N) as (σ1 & Hc1 & Hown & _); [by vm_compute|].
  destruct (unlock_last 1%nat σn Hrn false [false] Hs) as (σ1' & Hc1' & Hobj & _).
  { rewrite Hd. reflexivity. }
  change (calls 1 (replicate 0 true ++ [false; false]) 1%nat Unlock σn)
    with (call [false; false] 1%nat Unlock σn) in Hc1.
  rewrite Hc1 in Hc1'. injection Hc1' as <-.
  unfold owns_exclusive in Hown. rewrite Hobj in Hown. discriminate Hown.
Qed.

(** ** The theorems at concrete states *)

Lemma held_by_1_reachable : reachable {[1%nat]} held_by_1.
Proof.
  pose proof (script_reachable {[1%nat]} [(1%nat, Lock)] [false; false] init)
    as Hreach.
  apply Hreach; [|apply reachable_init].
  repeat constructor; simpl; by apply elem_of_singleton.
Defined.

Lemma writer_1_waiting_reachable :
  reachable {[1%nat; 2%nat]} writer_1_waiting.
Proof.
  apply (reachable_step _ init (Call 1%nat Lock) _ None).
  - apply reachable_init.
  - simpl. apply elem_of_union_l, elem_of_singleton. reflexivity.
  - reflexivity.
Defined.

Lemma mutual_exclusion_witness :
  (∀ t', holds_exclusive held_by_1 t' → t' = 1%nat)
  ∧ _readersOwnership (obj held_by_1) = ∅
  ∧ (∀ t', t' ≠ 1%nat → ¬ holds_shared held_by_1 t').
Proof.
  apply (mutual_exclusion {[1%nat]} held_by_1 1%nat).
  - exact held_by_1_reachable.
  - split; reflexivity.
Defined.

Lemma writer_preference_witness :
  let σ' := Sys (set_waitingWriters 1 RecursiveSharedMutex_new) None
                (<[2%nat := SharedWait]> {[1%nat := LockSpin]}) in
  (∀ t d, _readersOwnership (obj writer_1_waiting) !! t = None →
          _readersOwnership (obj σ') !! t = Some d →
          (∃ b, Call 2%nat LockShared = Run t b)
          ∧ pc_of writer_1_waiting t = SharedWait
          ∧ _waitingWriters (obj writer_1_waiting) = 0
          ∧ _writerThreadId (obj writer_1_waiting) = None
          ∧ d = 1 ∧ None = Some RetVoid)
  ∧ (∀ w, waiting (pc_of writer_1_waiting w) = true →
          ∀ t, _readersOwnership (obj writer_1_waiting) !! t = None →
               _readersOwnership (obj σ') !! t = None).
Proof.
  apply (writer_preference {[1%nat; 2%nat]} writer_1_waiting
           (Call 2%nat LockShared)).
  - vm_compute. reflexivity.
  - exact writer_1_waiting_reachable.
  - reflexivity.
Defined.

Lemma lock_reentrant_witness :
  ∃ σ', call [] 1%nat Lock held_by_1 = Ok σ' (Some RetVoid)
    ∧ exec (Call 1%nat Lock) held_by_1 = Ok σ' (Some RetVoid)
    ∧ _writersOwnership (obj σ') = incr32 (_writersOwnership (obj held_by_1))
    ∧ (is_uint32 (_writersOwnership (obj held_by_1) + 1) →
       _writersOwnership (obj σ') = _writersOwnership (obj held_by_1) + 1)
    ∧ _readersOwnership (obj σ') = _readersOwnership (obj held_by_1)
    ∧ _waitingWriters (obj σ') = _waitingWriters (obj held_by_1)
    ∧ _writerThreadId (obj σ') = _writerThreadId (obj held_by_1)
    ∧ ready σ' 1%nat.
Proof.
  apply (lock_reentrant 1%nat [] held_by_1).
  - split; reflexivity.
  - reflexivity.
Defined.

Lemma unlock_semantics_witness :
  ∃ σ', call [false] 1%nat Unlock held_by_1 = Ok σ' (Some RetVoid)
    ∧ ready σ' 1%nat
    ∧ _readersOwnership (obj σ') = _readersOwnership (obj held_by_1)
    ∧ _waitingWriters (obj σ') = _waitingWriters (obj held_by_1)
    ∧ (1 < _writersOwnership (obj held_by_1) →
       _writersOwnership (obj σ') = _writersOwnership (obj held_by_1) - 1
       ∧ _writerThreadId (obj σ') = Some 1%nat)
    ∧ (_writersOwnership (obj held_by_1) = 1 →
       _writerThreadId (obj σ') = None ∧ _writersOwnership (obj σ') = 1).
Proof.
  apply (unlock_semantics 1%nat false [] held_by_1).
  - split; reflexivity.
  - reflexivity.
  - unfold is_uint32, UINT32_MOD. simpl. lia.
Defined.

Lemma held_by_1_wf : wf (obj held_by_1).
Proof.
  split; [|split].
  - unfold is_uint32, UINT32_MOD. simpl. lia.
  - unfold is_uint32, UINT32_MOD. simpl. lia.
  - apply map_Forall_empty.
Defined.

Lemma read_by_2_wf d :
  is_uint32 d →
  wf (set_readersOwnership {[2%nat := d]} RecursiveSharedMutex_new).
Proof.
  intros Hd. split; [|split].
  - unfold is_uint32, UINT32_MOD. simpl. lia.
  - unfold is_uint32, UINT32_MOD. simpl. lia.
  - by apply map_Forall_singleton.
Defined.

(** The four cases at concrete states: the writer at depth 1, a reader at
    depth 2, a reader at depth 1, and a thread with no ownership. *)
Lemma unlock_shared_semantics_witness :
  (∃ σ', call [] 1%nat UnlockShared held_by_1 = Ok σ' (Some RetVoid)
     ∧ _writersOwnership (obj σ') = 0
     ∧ _writerThreadId (obj σ') = Some 1%nat)
  ∧ (∃ σ', call [] 2%nat UnlockShared read_twice_by_2 = Ok σ' (Some RetVoid)
       ∧ _readersOwnership (obj σ') !! 2%nat = Some 1)
  ∧ (∃ σ', call [] 2%nat UnlockShared read_by_2 = Ok σ' (Some RetVoid)
       ∧ _readersOwnership (obj σ') !! 2%nat = None)
  ∧ call [] 1%nat UnlockShared read_by_2 = Aborted.
Proof.
  assert (ready held_by_1 1%nat) as Hr1 by (split; reflexivity).
  assert (ready read_twice_by_2 2%nat) as Hr2 by (split; reflexivity).
  assert (ready read_by_2 2%nat) as Hr3 by (split; reflexivity).
  assert (ready read_by_2 1%nat) as Hr4 by (split; reflexivity).
  assert (is_uint32 1) as H1 by (unfold is_uint32, UINT32_MOD; lia).
  assert (is_uint32 2) as H2 by (unfold is_uint32, UINT32_MOD; lia).
  split; [|split; [|split]].
  - destruct (unlock_shared_semantics 1%nat [] held_by_1 Hr1 held_by_1_wf)
      as [Hw _].
    destruct (Hw eq_refl) as (σ' & Hc & _ & _ & Hd & Hs & _).
    exists σ'. split; [exact Hc|]. split; [|exact Hs].
    rewrite Hd; [reflexivity|]. simpl. lia.
  - destruct (unlock_shared_semantics 2%nat [] read_twice_by_2 Hr2
                (read_by_2_wf 2 H2)) as [_ Hr].
    destruct Hr as (σ' & Hc & _ & Hd & _); [discriminate|].
    exists σ'. split; [exact Hc|]. apply Hd. lia.
  - destruct (unlock_shared_semantics 2%nat [] read_by_2 Hr3
                (read_by_2_wf 1 H1)) as [_ Hr].
    destruct Hr as (σ' & Hc & _ & _ & Hd & _); [discriminate|].
    exists σ'. split; [exact Hc|]. apply Hd. reflexivity.
  - destruct (unlock_shared_semantics 1%nat [] read_by_2 Hr4
                (read_by_2_wf 1 H1)) as [_ Hr].
    apply Hr. discriminate.
Defined.

(** The three cases at concrete states: the thread in the slot, a free
    lock, and a lock held by another thread. *)
Lemma try_lock_semantics_witness :
  (∃ σ', call [false] 1%nat TryLock held_by_1 = Ok σ' (Some (RetBool true))
     ∧ _writersOwnership (obj σ') = 2
     ∧ _writerThreadId (obj σ') = Some 1%nat)
  ∧ (∃ σ', call [false] 1%nat TryLock init = Ok σ' (Some (RetBool true))
       ∧ _writersOwnership (obj σ') = 1
       ∧ _writerThreadId (obj σ') = Some 1%nat)
  ∧ (∃ σ', call [false] 2%nat TryLock held_by_1 = Ok σ' (Some (RetBool false))
       ∧ _writersOwnership (obj σ') = 1
       ∧ _writerThreadId (obj σ') = Some 1%nat).
Proof.
  split; [|split].
  - destruct (try_lock_semantics 1%nat false [] held_by_1)
      as (b & σ' & Hc & _ & _ & _ & Hown & _); [split; reflexivity|].
    destruct (Hown eq_refl) as (-> & _ & Hd & Hs).
    exists σ'. split; [exact Hc|]. split; [|exact Hs].
    rewrite Hd; [reflexivity|]. simpl. lia.
  - destruct (try_lock_semantics 1%nat false [] init)
      as (b & σ' & Hc & _ & _ & _ & _ & Hfree); [split; reflexivity|].
    destruct Hfree as (Hb & Hs & _ & Hd); [discriminate|].
    assert (b = true) as -> by (apply Hb; repeat split).
    exists σ'. split; [exact Hc|]. split; [exact Hd|]. by apply Hs.
  - destruct (try_lock_semantics 2%nat false [] held_by_1)
      as (b & σ' & Hc & _ & _ & _ & _ & Htaken); [split; reflexivity|].
    destruct Htaken as (Hb & _ & Hs & Hd); [discriminate|].
    assert (b = false) as ->.
    { destruct b; [|reflexivity].
      destruct Hb as [Hb _]. destruct (Hb eq_refl) as (_ & Hnone & _).
      discriminate Hnone. }
    exists σ'. split; [exact Hc|]. split; [exact Hd|]. by apply Hs.
Defined.

Lemma reentrancy_roundtrip_witness :
  roundtrip Lock Unlock owns_exclusive 3
  ∧ roundtrip LockShared UnlockShared owns_shared 3.
Proof.
  apply (reentrancy_roundtrip 3). lia.
Defined.

Lemma unlock_shared_underflow_witness :
  ∃ σ1 σ2,
    call [] 1%nat UnlockShared held_by_1 = Ok σ1 (Some RetVoid)
    ∧ _writersOwnership (obj σ1) = 0
    ∧ _writerThreadId (obj σ1) = Some 1%nat
    ∧ call [false] 1%nat Unlock σ1 = Ok σ2 (Some RetVoid)
    ∧ _writersOwnership (obj σ2) = 2 ^ 32 - 1
    ∧ _writerThreadId (obj σ2) = Some 1%nat.
Proof.
  apply (unlock_shared_underflow 1%nat false [] held_by_1).
  - split; reflexivity.
  - reflexivity.
  - reflexivity.
Defined.

(** * Further properties of the code *)

(** ** Reader entries and the bookkeeping mutex *)

Lemma init_Owned : Owned init.
Proof.
  split; unfold pc_of; simpl; intros t; rewrite ?lookup_empty; [done|].
  split; discriminate.
Qed.

Lemma insert_pair_lookup_ne t t' d (m : gmap tid Z) :
  t ≠ t' → insert_pair t d m !! t' = m !! t'.
Proof.
  intros Hne. unfold insert_pair. destruct (m !! t); [done|].
  by rewrite lookup_insert_ne.
Qed.

Lemma count_None_inv t (m : gmap tid Z) : count t m = 0 → m !! t = None.
Proof. unfold count. by destruct (m !! t). Qed.

(** Every block keeps [Owned]: a thread only ever touches its own reader
    entry, and does so from [Idle] or [SharedWait]; every guarded block
    starts with [_mtx] free and ends with it free, except the first block of
    [try_lock]. *)
Lemma exec_Owned e σ σ' r : Owned σ → exec e σ = Ok σ' r → Owned σ'.
Proof.
  intros [J M] H. destruct σ as [[ww sl wo rd] m ps].
  exec_cases H.
  all: split; simpl; unfold pc_of; simpl; intros t'.
  (* reader entries *)
  all: try (intros Hw; rewrite lookup_insert in Hw; case_decide;
            simplify_eq/=; try done;
            rewrite ?lookup_insert_ne, ?lookup_delete_ne,
              ?insert_pair_lookup_ne by done;
            first [ by apply J
                  | by apply count_None_inv
                  | match goal with
                    | Hp : default Idle _ = _ |- _ => apply J; by rewrite Hp
                    end ]).
  (* the mutex *)
  all: rewrite lookup_insert; case_decide; simplify_eq/=.
  all: split; [intros Hm|intros Hp]; try discriminate; try congruence.
  all: try (apply M in Hm; simpl in Hm; congruence).
  all: try (apply M in Hp; simpl in Hp; congruence).
  all: try (by apply M).
Qed.

Lemma reachable_Owned threads σ : reachable threads σ → Owned σ.
Proof.
  induction 1 as [|σ e σ' r _ IH _ Hstep]; eauto using init_Owned, exec_Owned.
Qed.

Lemma read_by_2_reachable : reachable {[1%nat; 2%nat]} read_by_2.
Proof.
  pose proof (script_reachable {[1%nat; 2%nat]} [(2%nat, LockShared)] [false]
                init) as Hreach.
  apply Hreach; [|apply reachable_init].
  repeat constructor; simpl; apply elem_of_union_r, elem_of_singleton; done.
Defined.

Lemma held_by_1_reachable_2 : reachable {[1%nat; 2%nat]} held_by_1.
Proof.
  pose proof (script_reachable {[1%nat; 2%nat]} [(1%nat, Lock)] [false; false]
                init) as Hreach.
  apply Hreach; [|apply reachable_init].
  repeat constructor; simpl; apply elem_of_union_l, elem_of_singleton; done.
Defined.

Lemma slot_not_reader threads σ t :
  reachable threads σ →
  _writerThreadId (obj σ) = Some t →
  _readersOwnership (obj σ) !! t = None.
Proof.
  intros Hreach Hs.
  pose proof (reachable_Inv _ _ Hreach) as I.
  pose proof (reachable_Owned _ _ Hreach) as O.
  destruct (acquiring (pc_of σ t)) eqn:Ha.
  - destruct (pc_of σ t) eqn:Hp; try discriminate.
    + apply (own_waiting _ O). by rewrite Hp.
    + apply (own_waiting _ O). by rewrite Hp.
    + by destruct (inv_try _ I _ Hp).
  - rewrite (inv_excl _ I t); [by rewrite lookup_empty|by split].
Qed.

(** X1. In every reachable state the thread in the writer slot has no
    reader-set entry, whether its acquisition is complete or it is still
    waiting for the readers to leave: [lock] asserts it on entry, [try_lock]
    claims the slot only when the reader set is empty, and [lock_shared] by
    the thread in the slot counts a writer level instead of inserting. *)
Theorem writer_never_in_reader_set threads σ t :
  reachable threads σ →
  _writerThreadId (obj σ) = Some t →
  ¬ holds_shared σ t.
Proof.
  intros Hreach Hs [d Hd].
  rewrite (slot_not_reader _ _ _ Hreach Hs) in Hd. discriminate.
Qed.

Lemma writer_never_in_reader_set_witness : ¬ holds_shared held_by_1 1%nat.
Proof.
  apply (writer_never_in_reader_set {[1%nat]} held_by_1 1%nat).
  - exact held_by_1_reachable.
  - reflexivity.
Defined.

(** X2. In every reachable state with an empty writer slot the stored writer
    recursion depth is 1: the constructor stores 1, the depth changes only
    while a thread is in the slot, and [unlock] empties the slot only at
    depth 1.  So a thread that claims the slot by compare-and-swap, which
    does not write the depth, starts at depth 1. *)
Theorem free_slot_depth_one threads σ :
  reachable threads σ →
  _writerThreadId (obj σ) = None →
  _writersOwnership (obj σ) = 1.
Proof. intros Hreach. apply inv_depth. by eapply reachable_Inv. Qed.

Lemma free_slot_depth_one_witness : _writersOwnership (obj read_by_2) = 1.
Proof.
  apply (free_slot_depth_one {[1%nat; 2%nat]} read_by_2).
  - exact read_by_2_reachable.
  - reflexivity.
Defined.

(** X3. With fewer than [2 ^ 32] threads, in every reachable state
    [_waitingWriters] is the number of threads that are inside [lock]
    between the increment of line 54 and the decrement of line 68; it is 0
    exactly when no thread is there. *)
Theorem waiting_writers_counts threads σ :
  Z.of_nat (size threads) < UINT32_MOD →
  reachable threads σ →
  _waitingWriters (obj σ) = Z.of_nat (size (waiting_set (pcs σ)))
  ∧ (_waitingWriters (obj σ) = 0 ↔ ∀ t, waiting (pc_of σ t) = false).
Proof.
  intros Hbound Hreach.
  destruct (reachable_Counted threads Hbound σ Hreach) as [Hww _].
  split; [done|]. rewrite Hww. split.
  - intros Hz t. destruct (waiting (pc_of σ t)) eqn:Hw; [|done].
    apply (elem_of_waiting_set (pcs σ) t) in Hw.
    assert (size (waiting_set (pcs σ)) = 0%nat) as Hsz by lia.
    apply size_empty_inv in Hsz. set_solver.
  - intros Hall.
    assert (waiting_set (pcs σ) = ∅) as ->; [|done].
    apply set_eq. intros t. rewrite elem_of_waiting_set.
    specialize (Hall t). unfold pc_of in Hall. rewrite Hall. set_solver.
Qed.

Lemma waiting_writers_counts_witness :
  _waitingWriters (obj writer_1_waiting)
  = Z.of_nat (size (waiting_set (pcs writer_1_waiting)))
  ∧ (_waitingWriters (obj writer_1_waiting) = 0
     ↔ ∀ t, waiting (pc_of writer_1_waiting t) = false).
Proof.
  apply (waiting_writers_counts {[1%nat; 2%nat]} writer_1_waiting).
  - vm_compute. reflexivity.
  - exact writer_1_waiting_reachable.
Defined.

(** ** What one step of another thread can and cannot do *)

(** X5. The writer slot leaves a thread only through that thread's own
    [unlock] at stored depth 1: in a reachable state, a step after which [t]
    is no longer in the slot is the second block of [t]'s [unlock], run at
    depth 1, and it leaves the slot empty.  No other thread and no other
    call takes the slot away. *)
Theorem slot_released_only_by_owner threads σ e σ' r t :
  reachable threads σ →
  exec e σ = Ok σ' r →
  _writerThreadId (obj σ) = Some t →
  _writerThreadId (obj σ') ≠ Some t →
  (∃ w, e = Run t w) ∧ pc_of σ t = UnlockBody
  ∧ _writersOwnership (obj σ) = 1
  ∧ _writerThreadId (obj σ') = None ∧ r = Some RetVoid.
Proof.
  intros Hreach H Hs Hs'. pose proof (reachable_Inv _ _ Hreach) as [_ I2 _ _ _].
  destruct σ as [[ww sl wo rd] m ps]. destruct e as [t0 o|t0 w].
  all: exec_cases H; try done.
  pose proof (I2 _ H0) as Ht. simpl in Ht. simplify_eq. eauto 10.
Qed.

Lemma slot_released_only_by_owner_witness :
  let σ := Sys (set_writerThreadId (Some 1%nat) RecursiveSharedMutex_new) None
               (<[1%nat := UnlockBody]> {[1%nat := Idle]}) in
  let σ' := Sys RecursiveSharedMutex_new None
                (<[1%nat := Idle]> (<[1%nat := UnlockBody]> {[1%nat := Idle]})) in
  (∃ w, Run 1%nat false = Run 1%nat w) ∧ pc_of σ 1%nat = UnlockBody
  ∧ _writersOwnership (obj σ) = 1
  ∧ _writerThreadId (obj σ') = None ∧ Some RetVoid = Some RetVoid.
Proof.
  apply (slot_released_only_by_owner {[1%nat]}).
  - apply (reachable_step _ held_by_1 (Call 1%nat Unlock) _ None).
    + exact held_by_1_reachable.
    + simpl. by apply elem_of_singleton.
    + reflexivity.
  - reflexivity.
  - reflexivity.
  - discriminate.
Defined.

(** X6. A thread gets into the writer slot only by its own successful
    compare-and-swap on an empty slot: a step after which [t] is in the slot
    and before which it was not is a block of [t] that found the slot empty,
    either the compare-and-swap of [lock] (and [t] still has to wait for the
    readers) or the one of [try_lock] with the reader set empty. *)
Theorem slot_claimed_only_from_empty e σ σ' r t :
  exec e σ = Ok σ' r →
  _writerThreadId (obj σ) ≠ Some t →
  _writerThreadId (obj σ') = Some t →
  e = Run t false ∧ _writerThreadId (obj σ) = None
  ∧ ((pc_of σ t = LockSpin ∧ pc_of σ' t = LockDrain ∧ r = None)
     ∨ (pc_of σ t = TryCas ∧ _readersOwnership (obj σ) = ∅
        ∧ r = Some (RetBool true))).
Proof.
  intros H Hs Hs'. destruct σ as [[ww sl wo rd] m ps].
  destruct e as [t0 o|t0 w].
  all: exec_cases H; try done.
  - split; [done|]. split; [done|]. left.
    by rewrite lookup_insert_eq.
  - split; [done|]. split; [done|]. right.
    repeat split; try done. by apply size_zero_empty.
Qed.

Lemma slot_claimed_only_from_empty_witness :
  let σ' := Sys (set_writerThreadId (Some 1%nat)
                   (set_waitingWriters 1 RecursiveSharedMutex_new)) None
                (<[1%nat := LockDrain]> {[1%nat := LockSpin]}) in
  Run 1%nat false = Run 1%nat false
  ∧ _writerThreadId (obj writer_1_waiting) = None
  ∧ ((pc_of writer_1_waiting 1%nat = LockSpin ∧ pc_of σ' 1%nat = LockDrain
      ∧ @None ret = None)
     ∨ (pc_of writer_1_waiting 1%nat = TryCas
        ∧ _readersOwnership (obj writer_1_waiting) = ∅
        ∧ None = Some (RetBool true))).
Proof.
  apply (slot_claimed_only_from_empty (Run 1%nat false) writer_1_waiting).
  - reflexivity.
  - discriminate.
  - reflexivity.
Defined.

(** X7. Exclusive ownership is stable under the other threads: in a
    reachable state where [t] holds exclusive ownership, no block of another
    thread changes the writer slot, the stored depth or the (empty) reader
    set, and [t] holds exclusive ownership afterwards.  The other threads
    can only announce themselves, spin, fail a [try_lock] or abort. *)
Theorem exclusive_ownership_stable threads σ e σ' r t :
  reachable threads σ →
  holds_exclusive σ t →
  ev_thread e ≠ t →
  exec e σ = Ok σ' r →
  _writerThreadId (obj σ') = Some t
  ∧ _writersOwnership (obj σ') = _writersOwnership (obj σ)
  ∧ _readersOwnership (obj σ') = ∅
  ∧ holds_exclusive σ' t.
Proof.
  intros Hreach Hex Hne H.
  pose proof (reachable_Inv _ _ Hreach) as [I1 I2 _ I4 _].
  pose proof (I4 _ Hex) as Hrd. destruct Hex as [Hs Ha].
  destruct σ as [[ww sl wo rd] m ps]. simpl in Hrd, Hs. subst rd sl.
  unfold holds_exclusive.
  destruct e as [t0 o|t0 w]; simpl in Hne.
  all: exec_cases H; try done.
  all: try (match goal with
            | Hp : default Idle _ = LockDrain |- _ => pose proof (I1 _ Hp)
            | Hp : default Idle _ = UnlockBody |- _ => pose proof (I2 _ Hp)
            end; simplify_eq/=).
  all: unfold pc_of; simpl; rewrite ?lookup_insert_ne by done; try done.
Qed.

Lemma exclusive_ownership_stable_witness :
  let σ' := Sys (set_waitingWriters 1
                   (set_writerThreadId (Some 1%nat) RecursiveSharedMutex_new))
                None (<[2%nat := LockSpin]> {[1%nat := Idle]}) in
  _writerThreadId (obj σ') = Some 1%nat
  ∧ _writersOwnership (obj σ') = _writersOwnership (obj held_by_1)
  ∧ _readersOwnership (obj σ') = ∅
  ∧ holds_exclusive σ' 1%nat.
Proof.
  apply (exclusive_ownership_stable {[1%nat; 2%nat]} held_by_1
           (Call 2%nat Lock) _ None 1%nat).
  - exact held_by_1_reachable_2.
  - split; reflexivity.
  - discriminate.
  - reflexivity.
Defined.

(** X8. A reader-set entry is private to its thread: no block of another
    thread inserts, changes or removes the entry of [t]. *)
Theorem reader_entry_private e σ σ' r t :
  exec e σ = Ok σ' r →
  ev_thread e ≠ t →
  _readersOwnership (obj σ') !! t = _readersOwnership (obj σ) !! t.
Proof.
  intros H Hne. destruct σ as [[ww sl wo rd] m ps].
  destruct e as [t0 o|t0 w]; simpl in Hne.
  all: exec_cases H; try done.
  all: by rewrite ?lookup_insert_ne, ?lookup_delete_ne,
         ?insert_pair_lookup_ne by done.
Qed.

Lemma reader_entry_private_witness :
  let σ' := Sys (set_readersOwnership (<[1%nat := 1]> {[2%nat := 1]})
                   RecursiveSharedMutex_new)
                None (<[1%nat := Idle]> (<[1%nat := SharedWait]> {[2%nat := Idle]})) in
  let σ := Sys (set_readersOwnership {[2%nat := 1]} RecursiveSharedMutex_new)
               None (<[1%nat := SharedWait]> {[2%nat := Idle]}) in
  _readersOwnership (obj σ') !! 2%nat = _readersOwnership (obj σ) !! 2%nat.
Proof.
  apply (reader_entry_private (Run 1%nat false) _ _ (Some RetVoid)).
  - reflexivity.
  - discriminate.
Defined.

(** X9. Stored reader depths stay at least 1 under every block except one:
    from a state with 32-bit fields where every reader entry is at least 1,
    a step leaves every reader entry at least 1, unless it is a [lock_shared]
    by a thread whose entry is at the top value [2 ^ 32 - 1] (the increment
    then wraps to 0).  In particular [unlock_shared] removes an entry of
    depth 1 instead of storing 0. *)
Theorem reader_depths_stay_positive e σ σ' r :
  wf (obj σ) →
  readers_positive (obj σ) →
  (∀ t, e = Call t LockShared →
        _readersOwnership (obj σ) !! t ≠ Some (UINT32_MOD - 1)) →
  exec e σ = Ok σ' r →
  readers_positive (obj σ').
Proof.
  intros (_ & _ & Hwf) Hpos Htop H. unfold readers_positive in *.
  destruct σ as [[ww sl wo rd] m ps]. simpl in *.
  destruct e as [t0 o|t0 w].
  all: exec_cases H; try done.
  - (* lock_shared, nested *)
    apply map_Forall_insert_2; [|done]. unfold at_.
    destruct (rd !! t0) as [d|] eqn:Hd; [|done].
    pose proof (map_Forall_lookup_1 _ _ _ _ Hwf Hd).
    pose proof (map_Forall_lookup_1 _ _ _ _ Hpos Hd).
    specialize (Htop t0 eq_refl). simpl in *.
    assert (d ≠ UINT32_MOD - 1) by congruence. lia32.
  - (* unlock_shared, nested *)
    apply map_Forall_insert_2; [|done]. unfold at_ in *.
    destruct (rd !! t0) as [d|] eqn:Hd; [|done].
    pose proof (map_Forall_lookup_1 _ _ _ _ Hwf Hd).
    pose proof (map_Forall_lookup_1 _ _ _ _ Hpos Hd).
    simpl in *. lia32.
  - (* unlock_shared, last level *)
    by apply map_Forall_delete.
  - (* lock_shared, admitted *)
    apply insert_pair_Forall; [lia|done].
Qed.

Lemma reader_depths_stay_positive_witness :
  readers_positive
    (set_readersOwnership (delete 2%nat {[2%nat := 1]}) RecursiveSharedMutex_new).
Proof.
  apply (reader_depths_stay_positive (Call 2%nat UnlockShared) read_by_2
           (Sys _ None (<[2%nat := Idle]> {[2%nat := Idle]})) (Some RetVoid)).
  - split; [|split].
    + unfold is_uint32, UINT32_MOD. simpl. lia.
    + unfold is_uint32, UINT32_MOD. simpl. lia.
    + apply map_Forall_singleton. unfold is_uint32, UINT32_MOD. lia.
  - apply map_Forall_singleton. lia.
  - intros t Ht. discriminate Ht.
  - reflexivity.
Defined.

(** ** Calls that do not return while the lock is not available *)

Lemma exec_other_pc e σ σ' r t' :
  exec e σ = Ok σ' r → ev_thread e ≠ t' → pc_of σ' t' = pc_of σ t'.
Proof.
  intros H Hne. destruct σ as [s m ps]. destruct e as [t o|t w]; simpl in Hne.
  all: unfold exec, guarded, holding, unguarded, commit in H.
  all: repeat (case_match; simplify_eq); simplify_eq.
  all: by rewrite pc_of_commit, decide_False.
Qed.

Lemma spin_blocked t t' ws σ :
  pc_of σ t = LockSpin →
  _writerThreadId (obj σ) = Some t' →
  ∃ σ', run_alone ws t σ = Ok σ' None
    ∧ obj σ' = obj σ ∧ mtx σ' = mtx σ ∧ pc_of σ' t = LockSpin
    ∧ ∀ u, u ≠ t → pc_of σ' u = pc_of σ u.
Proof.
  revert σ. induction ws as [|w ws IH]; intros σ Hpc Hs; [by eauto 10|].
  rewrite run_alone_cons. unfold exec, unguarded, lock_cas, commit.
  rewrite Hpc, Hs.
  edestruct (IH (Sys (obj σ) (mtx σ) (<[t := LockSpin]> (pcs σ))))
    as (σ' & Hrun & Hobj & Hmtx & Hpc' & Hoth); [|done|].
  - by rewrite pc_of_commit, decide_True.
  - exists σ'. repeat split; try done. intros u Hu.
    by rewrite (Hoth u Hu), pc_of_commit, decide_False.
Qed.

Lemma drain_blocked t ws σ :
  pc_of σ t = LockDrain →
  mtx σ = None →
  _readersOwnership (obj σ) ≠ ∅ →
  ∃ σ', run_alone ws t σ = Ok σ' None
    ∧ obj σ' = obj σ ∧ mtx σ' = None ∧ pc_of σ' t = LockDrain
    ∧ ∀ u, u ≠ t → pc_of σ' u = pc_of σ u.
Proof.
  revert σ. induction ws as [|w ws IH]; intros σ Hpc Hm Hrd; [by eauto 10|].
  rewrite run_alone_cons. unfold exec, guarded, lock_drain, commit, size_is_zero.
  rewrite Hpc, Hm, bool_decide_eq_false_2
    by (intros Hz; by apply size_zero_empty in Hz).
  edestruct (IH (Sys (obj σ) None (<[t := LockDrain]> (pcs σ))))
    as (σ' & Hrun & Hobj & Hmtx & Hpc' & Hoth); [|done|done|].
  - by rewrite pc_of_commit, decide_True.
  - exists σ'. repeat split; try done. intros u Hu.
    by rewrite (Hoth u Hu), pc_of_commit, decide_False.
Qed.

Lemma wait_blocked t ws σ :
  pc_of σ t = SharedWait →
  mtx σ = None →
  _waitingWriters (obj σ) ≠ 0 ∨ _writerThreadId (obj σ) ≠ None →
  ∃ σ', run_alone ws t σ = Ok σ' None
    ∧ obj σ' = obj σ ∧ mtx σ' = None ∧ pc_of σ' t = SharedWait
    ∧ ∀ u, u ≠ t → pc_of σ' u = pc_of σ u.
Proof.
  revert σ. induction ws as [|w ws IH]; intros σ Hpc Hm Hw; [by eauto 10|].
  rewrite run_alone_cons. unfold exec, guarded, lock_shared_wait, commit.
  rewrite Hpc, Hm.
  assert (negb (negb (bool_decide (_waitingWriters (obj σ) = 0))
                || negb (bool_decide (_writerThreadId (obj σ) = None)))
          = false) as ->.
  { destruct Hw as [Hw|Hw]; rewrite (bool_decide_eq_false_2 _ Hw); simpl;
      [done|]. by rewrite orb_true_r. }
  edestruct (IH (Sys (obj σ) None (<[t := SharedWait]> (pcs σ))))
    as (σ' & Hrun & Hobj & Hmtx & Hpc' & Hoth); [|done|done|].
  - by rewrite pc_of_commit, decide_True.
  - exists σ'. repeat split; try done. intros u Hu.
    by rewrite (Hoth u Hu), pc_of_commit, decide_False.
Qed.

(** X10. [lock] called while another thread is in the writer slot does not
    return: whatever number of blocks the caller runs alone, it has
    announced itself (the waiting-writer count is incremented once, nothing
    else is changed) and is still before its compare-and-swap. *)
Theorem lock_blocks_while_held t t' ws σ :
  ready σ t →
  _writerThreadId (obj σ) = Some t' → t' ≠ t →
  _readersOwnership (obj σ) !! t = None →
  ∃ σ', call ws t Lock σ = Ok σ' None
    ∧ obj σ' = set_waitingWriters (incr32 (_waitingWriters (obj σ))) (obj σ)
    ∧ pc_of σ' t = LockSpin
    ∧ _waitingWriters (obj σ') = (_waitingWriters (obj σ) + 1) mod 2 ^ 32
    ∧ _writerThreadId (obj σ') = Some t'
    ∧ _writersOwnership (obj σ') = _writersOwnership (obj σ)
    ∧ _readersOwnership (obj σ') = _readersOwnership (obj σ).
Proof.
  intros [Hpc Hm] Hs Hne Hrd. destruct σ as [[ww sl wo rd] m ps].
  simpl in *. subst. step_block. unfold lock_enter, writer_is; simpl.
  rewrite bool_decide_eq_false_2 by congruence.
  rewrite (count_None _ _ Hrd), bool_decide_eq_true_2 by done. simpl.
  edestruct (spin_blocked t t' ws) as (σ' & Hrun & Hobj & _ & Hpc' & _);
    [| |exists σ'; split; [exact Hrun|split; [exact Hobj|split; [exact Hpc'|]]]].
  - by rewrite pc_of_commit, decide_True.
  - done.
  - by rewrite Hobj.
Qed.

Lemma lock_blocks_while_held_witness :
  ∃ σ', call [false; true; false] 2%nat Lock held_by_1 = Ok σ' None
    ∧ obj σ' = set_waitingWriters
                 (incr32 (_waitingWriters (obj held_by_1))) (obj held_by_1)
    ∧ pc_of σ' 2%nat = LockSpin
    ∧ _waitingWriters (obj σ')
      = (_waitingWriters (obj held_by_1) + 1) mod 2 ^ 32
    ∧ _writerThreadId (obj σ') = Some 1%nat
    ∧ _writersOwnership (obj σ') = _writersOwnership (obj held_by_1)
    ∧ _readersOwnership (obj σ') = _readersOwnership (obj held_by_1).
Proof.
  apply (lock_blocks_while_held 2%nat 1%nat _ held_by_1).
  - split; reflexivity.
  - reflexivity.
  - discriminate.
  - reflexivity.
Defined.

Lemma lock_drain_alone t j ws σ :
  ready σ t →
  _writerThreadId (obj σ) = None →
  _readersOwnership (obj σ) !! t = None →
  _readersOwnership (obj σ) ≠ ∅ →
  ∃ σ', call (replicate j true ++ false :: ws) t Lock σ = Ok σ' None
    ∧ obj σ' = set_writerThreadId (Some t)
                 (set_waitingWriters (incr32 (_waitingWriters (obj σ))) (obj σ))
    ∧ mtx σ' = None ∧ pc_of σ' t = LockDrain.
Proof.
  intros [Hpc Hm] Hs Hrd Hne. destruct σ as [[ww sl wo rd] m ps].
  simpl in *. subst. step_block. unfold lock_enter, writer_is; simpl.
  rewrite (count_None _ _ Hrd), bool_decide_eq_true_2 by done. simpl.
  edestruct (spin_alone t j (false :: ws)) as (σ1 & -> & Hobj & Hmtx & Hpc1);
    [by rewrite pc_of_commit, decide_True|done|].
  destruct σ1 as [s1 m1 ps1]; simpl in *; subst.
  step_block. unfold lock_cas; simpl.
  edestruct (drain_blocked t ws) as (σ' & Hrun & Hobj & Hmtx & Hpc' & _);
    [| | |exists σ'; split; [exact Hrun|split; [exact Hobj|split;
                                                  [exact Hmtx|exact Hpc']]]].
  - by rewrite pc_of_commit, decide_True.
  - done.
  - done.
Qed.

(** X11. [lock] called on a lock with an empty writer slot and readers
    claims the slot but does not return: after any number [j] of spurious
    failures and one successful compare-and-swap the caller is in the slot,
    the waiting-writer count is still incremented, the reader set is
    untouched, and however many more blocks it runs alone it stays in the
    loop of lines 62-73. *)
Theorem lock_waits_for_readers t j ws σ :
  ready σ t →
  _writerThreadId (obj σ) = None →
  _readersOwnership (obj σ) !! t = None →
  _readersOwnership (obj σ) ≠ ∅ →
  ∃ σ', call (replicate j true ++ false :: ws) t Lock σ = Ok σ' None
    ∧ obj σ' = set_writerThreadId (Some t)
                 (set_waitingWriters (incr32 (_waitingWriters (obj σ))) (obj σ))
    ∧ pc_of σ' t = LockDrain
    ∧ _writerThreadId (obj σ') = Some t
    ∧ _waitingWriters (obj σ') = (_waitingWriters (obj σ) + 1) mod 2 ^ 32
    ∧ _writersOwnership (obj σ') = _writersOwnership (obj σ)
    ∧ _readersOwnership (obj σ') = _readersOwnership (obj σ).
Proof.
  intros Hready Hs Hrd Hne.
  destruct (lock_drain_alone t j ws σ Hready Hs Hrd Hne)
    as (σ' & Hcall & Hobj & _ & Hpc).
  exists σ'. split; [done|]. split; [done|]. split; [done|]. by rewrite Hobj.
Qed.

Lemma lock_waits_for_readers_witness :
  ∃ σ', call (replicate 1 true ++ false :: [false; false]) 1%nat Lock read_by_2
        = Ok σ' None
    ∧ obj σ' = set_writerThreadId (Some 1%nat)
                 (set_waitingWriters
                    (incr32 (_waitingWriters (obj read_by_2))) (obj read_by_2))
    ∧ pc_of σ' 1%nat = LockDrain
    ∧ _writerThreadId (obj σ') = Some 1%nat
    ∧ _waitingWriters (obj σ')
      = (_waitingWriters (obj read_by_2) + 1) mod 2 ^ 32
    ∧ _writersOwnership (obj σ') = _writersOwnership (obj read_by_2)
    ∧ _readersOwnership (obj σ') = _readersOwnership (obj read_by_2).
Proof.
  apply (lock_waits_for_readers 1%nat 1 [false; false] read_by_2).
  - split; reflexivity.
  - reflexivity.
  - reflexivity.
  - intros Hempty. apply (f_equal (λ m : gmap tid Z, m !! 2%nat)) in Hempty.
    discriminate Hempty.
Defined.

(** X12. [lock_shared] called by a thread that is not in the writer slot and
    has no reader entry does not return while a writer is announced or the
    slot is taken: it changes nothing and stays in the loop of lines
    140-152, however many blocks it runs alone. *)
Theorem lock_shared_blocks_for_writer t ws σ :
  ready σ t →
  _writerThreadId (obj σ) ≠ Some t →
  _readersOwnership (obj σ) !! t = None →
  _waitingWriters (obj σ) ≠ 0 ∨ _writerThreadId (obj σ) ≠ None →
  ∃ σ', call ws t LockShared σ = Ok σ' None
    ∧ obj σ' = obj σ ∧ pc_of σ' t = SharedWait.
Proof.
  intros [Hpc Hm] Hs Hrd Hw. destruct σ as [[ww sl wo rd] m ps].
  simpl in *. subst. step_block. unfold lock_shared_enter, writer_is; simpl.
  rewrite bool_decide_eq_false_2 by done.
  rewrite (count_None _ _ Hrd). simpl.
  edestruct (wait_blocked t ws) as (σ' & Hrun & Hobj & _ & Hpc' & _);
    [| | |exists σ'; split; [exact Hrun|split; [exact Hobj|exact Hpc']]].
  - by rewrite pc_of_commit, decide_True.
  - done.
  - done.
Qed.

Lemma lock_shared_blocks_for_writer_witness :
  ∃ σ', call [false; false; false] 2%nat LockShared writer_1_waiting = Ok σ' None
    ∧ obj σ' = obj writer_1_waiting ∧ pc_of σ' 2%nat = SharedWait.
Proof.
  apply (lock_shared_blocks_for_writer 2%nat _ writer_1_waiting).
  - split; reflexivity.
  - discriminate.
  - reflexivity.
  - left. discriminate.
Defined.

(** ** Calls by a thread that already has ownership *)

(** X13. No upgrade: in a reachable state a thread that holds shared
    ownership is not in the writer slot, its [lock] fails the assertion of
    line 53, and its [try_lock] returns false and changes nothing. *)
Theorem no_upgrade threads σ t w ws :
  reachable threads σ →
  ready σ t →
  holds_shared σ t →
  call ws t Lock σ = Aborted
  ∧ returns (call (w :: ws) t TryLock σ) t (RetBool false) (obj σ).
Proof.
  intros Hreach Hready [d Hd].
  assert (_writerThreadId (obj σ) ≠ Some t) as Hs.
  { intros Hs. rewrite (slot_not_reader _ _ _ Hreach Hs) in Hd. discriminate. }
  split.
  - destruct Hready as [Hpc Hm]. destruct σ as [[ww sl wo rd] m ps].
    simpl in *. subst. step_block. unfold lock_enter, writer_is; simpl.
    rewrite bool_decide_eq_false_2 by done.
    by rewrite (count_Some _ _ _ Hd).
  - pose proof (try_lock_slow t σ Hready w ws Hs) as Htry.
    assert (size_is_zero (_readersOwnership (obj σ)) = false) as Hsz.
    { unfold size_is_zero. apply bool_decide_eq_false_2. intros Hz.
      apply size_zero_empty in Hz. rewrite Hz in Hd. discriminate. }
    by rewrite Hsz in Htry.
Qed.

Lemma no_upgrade_witness :
  call [] 2%nat Lock read_by_2 = Aborted
  ∧ returns (call [false] 2%nat TryLock read_by_2) 2%nat (RetBool false)
      (obj read_by_2).
Proof.
  apply (no_upgrade {[1%nat; 2%nat]} read_by_2 2%nat false []).
  - exact read_by_2_reachable.
  - split; reflexivity.
  - exists 1. reflexivity.
Defined.

(** X14. Reader re-entry is not subject to writer preference: in a reachable
    state a thread that has a reader entry of depth [d] and calls
    [lock_shared] returns after its first block with its entry at
    [d + 1] (32-bit increment), whatever the waiting-writer count and the
    writer slot are, and nothing else is changed. *)
Theorem lock_shared_reentry threads σ t d ws :
  reachable threads σ →
  ready σ t →
  _readersOwnership (obj σ) !! t = Some d →
  ∃ σ', call ws t LockShared σ = Ok σ' (Some RetVoid)
    ∧ obj σ' = set_readersOwnership
                 (<[t := incr32 d]> (_readersOwnership (obj σ))) (obj σ)
    ∧ ready σ' t
    ∧ exec (Call t LockShared) σ = Ok σ' (Some RetVoid)
    ∧ _readersOwnership (obj σ') !! t = Some ((d + 1) mod 2 ^ 32)
    ∧ (∀ u, u ≠ t → _readersOwnership (obj σ') !! u
                    = _readersOwnership (obj σ) !! u)
    ∧ _writerThreadId (obj σ') = _writerThreadId (obj σ)
    ∧ _writersOwnership (obj σ') = _writersOwnership (obj σ)
    ∧ _waitingWriters (obj σ') = _waitingWriters (obj σ).
Proof.
  intros Hreach Hready Hd.
  assert (_writerThreadId (obj σ) ≠ Some t) as Hs.
  { intros Hs. rewrite (slot_not_reader _ _ _ Hreach Hs) in Hd. discriminate. }
  destruct (lock_shared_nested t σ Hready [] d Hs Hd) as (σ' & Hc0 & Hobj & Hr).
  assert (exec (Call t LockShared) σ = Ok σ' (Some RetVoid)) as Hstep.
  { unfold call in Hc0.
    destruct (exec (Call t LockShared) σ) as [σ1 [r1|]| |]; try done. }
  exists σ'. split; [unfold call; by rewrite Hstep|].
  rewrite Hobj. simpl. split; [done|]. split; [done|]. split; [done|].
  split; [by rewrite lookup_insert_eq|]. split; [|done].
  intros u Hu. by rewrite lookup_insert_ne.
Qed.

Lemma lock_shared_reentry_witness :
  ∃ σ', call [] 2%nat LockShared read_by_2 = Ok σ' (Some RetVoid)
    ∧ obj σ' = set_readersOwnership
                 (<[2%nat := incr32 1]> (_readersOwnership (obj read_by_2)))
                 (obj read_by_2)
    ∧ ready σ' 2%nat
    ∧ exec (Call 2%nat LockShared) read_by_2 = Ok σ' (Some RetVoid)
    ∧ _readersOwnership (obj σ') !! 2%nat = Some ((1 + 1) mod 2 ^ 32)
    ∧ (∀ u, u ≠ 2%nat → _readersOwnership (obj σ') !! u
                        = _readersOwnership (obj read_by_2) !! u)
    ∧ _writerThreadId (obj σ') = _writerThreadId (obj read_by_2)
    ∧ _writersOwnership (obj σ') = _writersOwnership (obj read_by_2)
    ∧ _waitingWriters (obj σ') = _waitingWriters (obj read_by_2).
Proof.
  apply (lock_shared_reentry {[1%nat; 2%nat]} read_by_2 2%nat 1 []).
  - exact read_by_2_reachable.
  - split; reflexivity.
  - reflexivity.
Defined.

Lemma decr32_incr32 d : is_uint32 d → decr32 (incr32 d) = d.
Proof. intros. lia32. Qed.



(** ** Acquire and release *)

(** X16. On an unlocked lock in a reachable state, one acquisition followed
    by the matching release gives the object back exactly as it was, for
    each way to acquire: [lock] (whatever number [j] of spurious failures its
    compare-and-swap has) then [unlock]; [try_lock] whose compare-and-swap
    does not fail spuriously, which returns true, then [unlock]; and
    [lock_shared] then [unlock_shared].  In between the caller holds
    exclusive, respectively shared, ownership. *)
Theorem acquire_release_identity threads σ t j w ws :
  reachable threads σ →
  unlocked (obj σ) →
  ready σ t →
  (∃ σ1, call (replicate j true ++ false :: w :: ws) t Lock σ
         = Ok σ1 (Some RetVoid)
     ∧ holds_exclusive σ1 t
     ∧ returns (call (w :: ws) t Unlock σ1) t RetVoid (obj σ))
  ∧ (∃ σ1, call (false :: ws) t TryLock σ = Ok σ1 (Some (RetBool true))
       ∧ holds_exclusive σ1 t
       ∧ returns (call (w :: ws) t Unlock σ1) t RetVoid (obj σ))
  ∧ (∃ σ1, call (w :: ws) t LockShared σ = Ok σ1 (Some RetVoid)
       ∧ holds_shared σ1 t
       ∧ returns (call ws t UnlockShared σ1) t RetVoid (obj σ)).
Proof.
  intros Hreach (Hs & Hrd & Hww) Hready.
  pose proof (inv_depth _ (reachable_Inv _ _ Hreach) Hs) as Hd.
  split; [|split].
  - destruct (lock_acquire t σ j w ws Hready Hs Hrd) as (σ1 & Hc1 & Hobj1 & Hr1).
    exists σ1. split; [done|]. split.
    { split; [by rewrite Hobj1|]. destruct Hr1 as [-> _]. done. }
    pose proof (unlock_last t σ1 Hr1 w ws) as Hc2.
    rewrite Hobj1 in Hc2. simpl in Hc2. specialize (Hc2 eq_refl Hd).
    rewrite Hww in Hc2. destruct (obj σ); simpl in *; by subst.
  - pose proof (try_lock_slow t σ Hready false ws) as Hc1.
    rewrite Hs, Hrd in Hc1. simpl in Hc1.
    destruct Hc1 as (σ1 & Hc1 & Hobj1 & Hr1); [done|].
    exists σ1. split; [done|]. split.
    { split; [by rewrite Hobj1|]. destruct Hr1 as [-> _]. done. }
    pose proof (unlock_last t σ1 Hr1 w ws) as Hc2.
    rewrite Hobj1 in Hc2. simpl in Hc2. specialize (Hc2 eq_refl Hd).
    destruct (obj σ); simpl in *; by subst.
  - destruct (lock_shared_admitted t σ Hready w ws Hs Hww)
      as (σ1 & Hc1 & Hobj1 & Hr1); [by rewrite Hrd|].
    exists σ1. split; [done|]. split.
    { unfold holds_shared. rewrite Hobj1. simpl.
      rewrite lookup_insert_eq. by eexists. }
    pose proof (unlock_shared_last t σ1 Hr1 ws) as Hc2.
    rewrite Hobj1 in Hc2. simpl in Hc2. rewrite Hs, lookup_insert_eq in Hc2.
    specialize (Hc2 ltac:(done) eq_refl).
    rewrite Hrd, delete_insert_eq, delete_empty in Hc2.
    destruct (obj σ); simpl in *; by subst.
Qed.

Lemma acquire_release_identity_witness :
  (∃ σ1, call (replicate 2 true ++ false :: false :: []) 1%nat Lock init
         = Ok σ1 (Some RetVoid)
     ∧ holds_exclusive σ1 1%nat
     ∧ returns (call (false :: []) 1%nat Unlock σ1) 1%nat RetVoid (obj init))
  ∧ (∃ σ1, call (false :: []) 1%nat TryLock init = Ok σ1 (Some (RetBool true))
       ∧ holds_exclusive σ1 1%nat
       ∧ returns (call (false :: []) 1%nat Unlock σ1) 1%nat RetVoid (obj init))
  ∧ (∃ σ1, call (false :: []) 1%nat LockShared init = Ok σ1 (Some RetVoid)
       ∧ holds_shared σ1 1%nat
       ∧ returns (call [] 1%nat UnlockShared σ1) 1%nat RetVoid (obj init)).
Proof.
  apply (acquire_release_identity {[1%nat]} init 1%nat 2 false []).
  - apply reachable_init.
  - repeat split.
  - split; reflexivity.
Defined.



Lemma run_alone_other_pc ws t σ σ' r u :
  run_alone ws t σ = Ok σ' r → u ≠ t → pc_of σ' u = pc_of σ u.
Proof.
  revert σ. induction ws as [|w ws IH]; intros σ Hrun Hu.
  - by injection Hrun as <- _.
  - rewrite run_alone_cons in Hrun.
    destruct (exec (Run t w) σ) as [σ1 [r1|]| |] eqn:Hstep; try done.
    + injection Hrun as <- _. by eapply exec_other_pc.
    + rewrite (IH _ Hrun Hu). by eapply exec_other_pc.
Qed.

Lemma call_other_pc ws t o σ σ' r u :
  call ws t o σ = Ok σ' r → u ≠ t → pc_of σ' u = pc_of σ u.
Proof.
  unfold call. intros Hcall Hu.
  destruct (exec (Call t o) σ) as [σ1 [r1|]| |] eqn:Hstep; try done.
  - injection Hcall as <- _. by eapply exec_other_pc.
  - rewrite (run_alone_other_pc _ _ _ _ _ _ Hcall Hu). by eapply exec_other_pc.
Qed.

(** X18. Hand-over from the last reader to a writer: on a lock whose only
    reader is [t2], at depth 1, [lock] by another thread [t1] claims the slot
    and waits; [unlock_shared] by [t2] then returns and removes the entry;
    and the next block of [t1] finds the reader set empty, takes the
    decrement of line 68 and returns: [t1] holds exclusive ownership and the
    waiting-writer count is back at its value (32-bit). *)
Theorem lock_completes_after_last_reader t1 t2 j ws ws2 w ws3 σ :
  ready σ t1 → pc_of σ t2 = Idle → t1 ≠ t2 →
  _writerThreadId (obj σ) = None →
  _readersOwnership (obj σ) = {[t2 := 1]} →
  is_uint32 (_waitingWriters (obj σ)) →
  ∃ σ1 σ2 σ3,
    call (replicate j true ++ false :: ws) t1 Lock σ = Ok σ1 None
    ∧ call ws2 t2 UnlockShared σ1 = Ok σ2 (Some RetVoid)
    ∧ run_alone (w :: ws3) t1 σ2 = Ok σ3 (Some RetVoid)
    ∧ holds_exclusive σ3 t1
    ∧ _readersOwnership (obj σ3) = ∅
    ∧ _waitingWriters (obj σ3) = _waitingWriters (obj σ)
    ∧ _writersOwnership (obj σ3) = _writersOwnership (obj σ).
Proof.
  intros Hr1 Hpc2 Hne Hs Hrd Hww.
  destruct (lock_drain_alone t1 j ws σ Hr1 Hs) as (σ1 & Hc1 & Hobj1 & Hm1 & Hpc1).
  { rewrite Hrd. by apply lookup_singleton_ne. }
  { rewrite Hrd. intros Hempty.
    apply (f_equal (λ m : gmap tid Z, m !! t2)) in Hempty.
    by rewrite lookup_singleton_eq in Hempty. }
  assert (ready σ1 t2) as Hr2.
  { split; [|done]. by rewrite (call_other_pc _ _ _ _ _ _ _ Hc1). }
  destruct (unlock_shared_last t2 σ1 Hr2 ws2) as (σ2 & Hc2 & Hobj2 & Hr2').
  { rewrite Hobj1. simpl. congruence. }
  { rewrite Hobj1. simpl. rewrite Hrd. apply lookup_singleton_eq. }
  assert (pc_of σ2 t1 = LockDrain) as Hpc1'.
  { by rewrite (call_other_pc _ _ _ _ _ _ _ Hc2). }
  exists σ1, σ2. destruct Hr2' as [_ Hm2].
  rewrite Hobj1 in Hobj2. simpl in Hobj2.
  rewrite Hrd, delete_singleton_eq in Hobj2.
  destruct σ2 as [s2 m2 ps2]. simpl in *. subst.
  eexists. split; [done|]. split; [done|]. split.
  { unfold exec, guarded, lock_drain, commit, pc_of in *; simpl in *.
    rewrite Hpc1'. reflexivity. }
  split; [|split; [done|split; [|done]]].
  - split; [done|]. simpl. by rewrite pc_of_commit, decide_True.
  - simpl. by apply decr32_incr32.
Qed.

Lemma lock_completes_after_last_reader_witness :
  ∃ σ1 σ2 σ3,
    call (replicate 0 true ++ false :: [false]) 1%nat Lock read_by_2 = Ok σ1 None
    ∧ call [] 2%nat UnlockShared σ1 = Ok σ2 (Some RetVoid)
    ∧ run_alone (false :: []) 1%nat σ2 = Ok σ3 (Some RetVoid)
    ∧ holds_exclusive σ3 1%nat
    ∧ _readersOwnership (obj σ3) = ∅
    ∧ _waitingWriters (obj σ3) = _waitingWriters (obj read_by_2)
    ∧ _writersOwnership (obj σ3) = _writersOwnership (obj read_by_2).
Proof.
  apply (lock_completes_after_last_reader 1%nat 2%nat 0 [false] [] false []
           read_by_2).
  - split; reflexivity.
  - reflexivity.
  - discriminate.
  - reflexivity.
  - reflexivity.
  - unfold is_uint32, UINT32_MOD. simpl. lia.
Defined.

(** X19. Shared ownership is shared: when no writer is announced and the
    writer slot is empty, [lock_shared] by a thread without an entry returns
    after two blocks with an entry of depth 1, whatever other readers there
    are, and every other reader keeps its entry. *)
Theorem readers_share t w ws σ :
  ready σ t →
  _writerThreadId (obj σ) = None →
  _waitingWriters (obj σ) = 0 →
  _readersOwnership (obj σ) !! t = None →
  ∃ σ', call (w :: ws) t LockShared σ = Ok σ' (Some RetVoid)
    ∧ _readersOwnership (obj σ') !! t = Some 1
    ∧ (∀ u, u ≠ t →
            _readersOwnership (obj σ') !! u = _readersOwnership (obj σ) !! u)
    ∧ _writerThreadId (obj σ') = None
    ∧ _waitingWriters (obj σ') = 0
    ∧ _writersOwnership (obj σ') = _writersOwnership (obj σ).
Proof.
  intros Hready Hs Hww Hrd.
  destruct (lock_shared_admitted t σ Hready w ws Hs Hww Hrd)
    as (σ' & Hcall & Hobj & _).
  exists σ'. rewrite Hobj. simpl. split; [done|]. split.
  - apply lookup_insert_eq.
  - split; [|done]. intros u Hu. by apply lookup_insert_ne.
Qed.

Lemma readers_share_witness :
  ∃ σ', call (false :: []) 1%nat LockShared read_by_2 = Ok σ' (Some RetVoid)
    ∧ _readersOwnership (obj σ') !! 1%nat = Some 1
    ∧ (∀ u, u ≠ 1%nat →
            _readersOwnership (obj σ') !! u
            = _readersOwnership (obj read_by_2) !! u)
    ∧ _writerThreadId (obj σ') = None
    ∧ _waitingWriters (obj σ') = 0
    ∧ _writersOwnership (obj σ') = _writersOwnership (obj read_by_2).
Proof.
  apply (readers_share 1%nat false [] read_by_2).
  - split; reflexivity.
  - reflexivity.
  - reflexivity.
  - reflexivity.
Defined.
